(** * A Rocq model of [synthetic_analysis/synthetic_sc_walk.py]

    The program synthesises a random two-dimensional simplicial complex,
    walks across it, and the training arrays derived from those walks.
    Nodes are integers, edges are pairs of nodes, faces are rows of three
    nodes; dictionaries are [gmap]s, sets are [gset]s, numpy vectors and
    matrices are lists and lists of rows.  The external collaborators
    (Delaunay triangulation, the random source, shortest paths) enter
    the model as inputs of the functions that consume them. *)

From Stdlib Require Import ZArith QArith Lia Lqa.
From stdpp Require Import base list gmap sets numbers sorting.

Local Open Scope Z_scope.

(** ** Python built-ins *)

Abbreviation edge := (Z * Z)%type.

(** Tuples compare lexicographically. *)
Definition edge_le (e1 e2 : edge) : Prop :=
  e1.1 < e2.1 ∨ (e1.1 = e2.1 ∧ e1.2 ≤ e2.2).

Global Instance edge_le_dec : RelDecision edge_le.
Proof. intros e1 e2. unfold edge_le. apply _. Defined.

(** [sorted(xs)] for a collection of integers, and for one of tuples. *)
Definition sorted (l : list Z) : list Z := merge_sort Z.le l.
Definition sorted_edges (l : list edge) : list edge := merge_sort edge_le l.

(** [np.in1d(xs, ys).all()] *)
Definition in1d_all (xs ys : list Z) : Prop := Forall (λ x, x ∈ ys) xs.

Global Instance in1d_all_dec xs ys : Decision (in1d_all xs ys).
Proof. unfold in1d_all. apply _. Defined.

(** [dict(zip(keys, range(len(keys))))]: later bindings overwrite earlier ones. *)
Definition dict_zip_range (keys : list edge) : gmap edge nat :=
  foldl (λ d kv, <[kv.1 := kv.2]> d) ∅ (zip keys (seq 0 (length keys))).

(** ** Faces and the directed graph (networkx [DiGraph]) *)

(** A row of [tri.simplices]: three node indices. *)
Record face := Face { fv0 : Z; fv1 : Z; fv2 : Z }.

Definition face_nodes (f : face) : list Z := [fv0 f; fv1 f; fv2 f].

(** [[a,b,c] = sorted(f)]; a row always has three entries, so the
    unpacking cannot fail and the last branch is never taken. *)
Definition sorted_face (f : face) : Z * Z * Z :=
  match sorted (face_nodes f) with
  | [a; b; c] => (a, b, c)
  | _ => (fv0 f, fv1 f, fv2 f)
  end.

(** [[e0,e1] = sorted(e)] *)
Definition sorted_pair (e : edge) : Z * Z :=
  match sorted [e.1; e.2] with
  | [e0; e1] => (e0, e1)
  | _ => e
  end.

Record DiGraph := { nodes : gset Z; edges : gset edge }.

Definition empty_DiGraph : DiGraph := {| nodes := ∅; edges := ∅ |}.

Definition add_nodes_from (vs : list Z) (G : DiGraph) : DiGraph :=
  {| nodes := nodes G ∪ list_to_set vs; edges := edges G |}.

(** [G.add_edge(u, v)] also adds the endpoints to the node set. *)
Definition add_edge (u v : Z) (G : DiGraph) : DiGraph :=
  {| nodes := nodes G ∪ {[u; v]}; edges := edges G ∪ {[(u, v)]} |}.

(** Body of the loop [for f in faces] of [random_SC_graph]. *)
Definition add_face (G : DiGraph) (f : face) : DiGraph :=
  let '(a, b, c) := sorted_face f in
  add_edge a c (add_edge b c (add_edge a b G)).

Record SC := {
  sc_G : DiGraph;
  sc_V : list Z;
  sc_E : list edge;
  sc_E_lookup : gmap edge nat;
  sc_faces : list face
}.

(** [random_SC_graph(n)].  The sampled points are consumed only by the
    triangulation and by the validity test, so the model takes their two
    outcomes, [tri.simplices] and [valid_idxs], as inputs. *)
Definition random_SC_graph (n : Z) (simplices : list face) (valid_idxs : list Z) : SC :=
  let faces := filter (λ t, in1d_all (face_nodes t) valid_idxs) simplices in
  let G := foldl add_face (add_nodes_from (seqZ 0 n) empty_DiGraph) faces in
  let V := sorted (elements (nodes G)) in
  let E := sorted_edges (elements (edges G)) in
  {| sc_G := G; sc_V := V; sc_E := E;
     sc_E_lookup := dict_zip_range E; sc_faces := faces |}.

(** ** Incidence matrices *)

Abbreviation matrix := (list (list Z)).

(** Entry [(i, j)] of a matrix, when it exists. *)
Definition entry (M : matrix) (i j : nat) : option Z := M !! i ≫= (.!! j).

(** Column [j] of a matrix whose rows all reach index [j]. *)
Definition column (M : matrix) (j : nat) : list Z := omap (.!! j) M.

(** Modelled from the spec: [nx.incidence_matrix(G, nodelist, edgelist,
    oriented=True)] is networkx code, absent from the sources.  One row per
    node of [nodelist], one column per edge of [edgelist]; the column of
    edge [(u, v)] holds -1 in the row of its tail [u], +1 in the row of
    its head [v] and 0 elsewhere (a self loop gives a zero column); an
    endpoint missing from [nodelist] is an error.  The node list is taken
    without repetitions, as [sorted(G.nodes)] is. *)
Definition incidence_entry (x : Z) (e : edge) : Z :=
  if decide (e.1 = e.2) then 0
  else if decide (x = e.1) then -1
  else if decide (x = e.2) then 1
  else 0.

Definition incidence_matrix (nodelist : list Z) (edgelist : list edge) : option matrix :=
  if decide (Forall (λ e : edge, e.1 = e.2 ∨ (e.1 ∈ nodelist ∧ e.2 ∈ nodelist)) edgelist)
  then Some ((λ x, incidence_entry x <$> edgelist) <$> nodelist)
  else None.

(** The value the double loop of [incidience_matrices] leaves in
    [B2[e_idx, f_idx]]: each cell starts at 0 and is written at most once. *)
Definition B2_entry (e : edge) (f : face) : Z :=
  let '(e0, e1) := sorted_pair e in
  if decide (in1d_all [e.1; e.2] (face_nodes f)) then
    let '(a, b, _) := sorted_face f in
    if decide (e0 = a) then
      if decide (e1 = b) then 1 else -1
    else 1
  else 0.

Definition B2_matrix (E : list edge) (faces : list face) : matrix :=
  (λ e, B2_entry e <$> faces) <$> E.

(** [incidience_matrices(G, V, E, faces)] (the graph argument is only
    handed on to networkx, which reads [nodelist] and [edgelist]). *)
Definition incidience_matrices (V : list Z) (E : list edge) (faces : list face)
  : option (matrix * matrix) :=
  B1 ← incidence_matrix V E;
  Some (B1, B2_matrix E faces).

(** [synthesize_SC_graph]: the complex together with its matrices. *)
Definition synthesize_SC_graph (n : Z) (simplices : list face) (valid_idxs : list Z)
  : option (SC * matrix * matrix) :=
  let sc := random_SC_graph n simplices valid_idxs in
  '(B1, B2) ← incidience_matrices (sc_V sc) (sc_E sc) (sc_faces sc);
  Some (sc, B1, B2).

(** ** Vocabulary of the statements about the complex *)

(** A triangle of a triangulation has three distinct corners. *)
Definition nondegenerate (f : face) : Prop := NoDup (face_nodes f).

Global Instance nondegenerate_dec f : Decision (nondegenerate f).
Proof. unfold nondegenerate. apply _. Defined.

(** The corners of a face are indices of the [n] sampled points. *)
Definition in_range (n : Z) (f : face) : Prop :=
  Forall (λ x, 0 ≤ x < n) (face_nodes f).

Global Instance in_range_dec n f : Decision (in_range n f).
Proof. unfold in_range. apply _. Defined.

(** Closes a decidable closed goal by evaluating its decision procedure. *)
Ltac by_decide := apply (bool_decide_unpack _); vm_compute; exact I.

(** The three sides of a face, oriented from the lower to the higher node. *)
Definition sides (f : face) : list edge :=
  let '(a, b, c) := sorted_face f in [(a, b); (b, c); (a, c)].

(** Number of nonzero entries of a vector. *)
Definition count_nonzero (v : list Z) : nat := length (filter (λ x, x ≠ 0) v).

(** Sum of the entries of a vector. *)
Definition vsum (v : list Z) : Z := foldr Z.add 0 v.

(** ** Python sequences *)

(** [l[i]] with Python's negative indices; [None] is an [IndexError]. *)
Definition py_index {A} (l : list A) (i : Z) : option A :=
  if decide (0 ≤ i) then l !! Z.to_nat i
  else if decide (0 ≤ Z.of_nat (length l) + i) then l !! Z.to_nat (Z.of_nat (length l) + i)
  else None.

(** Slice bound: a negative bound counts from the end, and both kinds are clipped. *)
Definition py_bound {A} (l : list A) (k : Z) : nat :=
  Z.to_nat (if decide (k < 0) then Z.of_nat (length l) + k else k).

(** [l[:k]] and [l[k:]] *)
Definition py_take {A} (k : Z) (l : list A) : list A := take (py_bound l k) l.
Definition py_drop {A} (k : Z) (l : list A) : list A := drop (py_bound l k) l.

(** [max(xs)]; [None] is the [ValueError] on an empty sequence. *)
Definition py_max (xs : list Z) : option Z :=
  match xs with
  | [] => None
  | x :: xs' => Some (foldl Z.max x xs')
  end.

(** ** The process-wide random source *)

(** The source is the stream of raw draws still to come; a computation
    that draws from it either raises ([None]) or returns a value and the
    rest of the stream. *)
Abbreviation rng := (nat → nat).

Definition Rand (A : Type) : Type := rng → option (A * rng).

Global Instance Rand_ret : MRet Rand := λ A a s, Some (a, s).

Global Instance Rand_bind : MBind Rand := λ A B f m s,
  match m s with
  | Some (a, s') => f a s'
  | None => None
  end.

(** An exception of a pure step aborts the run. *)
Definition raise_or {A} (o : option A) : Rand A := λ s,
  match o with
  | Some a => Some (a, s)
  | None => None
  end.

(** Modelled from the spec: [np.random.choice(k)] is numpy code, absent
    from the sources.  On an integer [k] it draws from [range(k)], and it
    fails when [k] is not positive (the spec: a window that is ≤ 0 makes
    the random choice fail). *)
Definition choice_int (k : Z) : Rand Z := λ s,
  if decide (0 < k) then Some (Z.of_nat (s 0%nat) `mod` k, λ i, s (S i))
  else None.

(** [np.random.choice(arr)] on an array: one of its elements, an error
    when the array is empty. *)
Definition choice (arr : list Z) : Rand Z :=
  i ← choice_int (Z.of_nat (length arr));
  raise_or (arr !! Z.to_nat i).

Definition swap (i j : nat) (x : list Z) : list Z :=
  match x !! i, x !! j with
  | Some a, Some b => <[j := a]> (<[i := b]> x)
  | _, _ => x
  end.

(** Modelled from the spec: [np.random.shuffle(x)] is numpy code, absent
    from the sources; it permutes [x] at random.  The model is numpy's
    Fisher-Yates loop, [for i in reversed(range(1, n))]: swap [x[i]] with
    [x[j]] for a drawn [j] in [0..i]. *)
Fixpoint shuffle_from (i : nat) (x : list Z) : Rand (list Z) :=
  match i with
  | O => mret x
  | S i' =>
      j ← choice_int (Z.of_nat (S i'));
      shuffle_from i' (swap (S i') (Z.to_nat j) x)
  end.

Definition shuffle (x : list Z) : Rand (list Z) :=
  shuffle_from (length x - 1) x.

(** ** Region partition of the valid nodes *)

Global Instance Qlt_dec (x y : Q) : Decision (x < y)%Q.
Proof.
  destruct (Qlt_le_dec x y) as [H|H]; [left; exact H|right].
  apply Qle_not_lt, H.
Defined.

Record regions := {
  BEGIN : list Z; END : list Z;
  A0 : list Z; A1 : list Z; A2 : list Z;
  B0 : list Z; B1_ : list Z; B2_ : list Z
}.

(** The eight regions, in the order BEGIN, A0, A1, A2, B0, B1, B2, END. *)
Definition region_list (R : regions) : list (list Z) :=
  [BEGIN R; A0 R; A1 R; A2 R; B0 R; B1_ R; B2_ R; END R].

(** [xs[mask]] for a boolean mask *)
Definition mask_select {A} (mask : list bool) (xs : list A) : list A :=
  (filter (λ xb, Is_true xb.2) (zip xs mask)).*1.

Section Regions.

(** Rounding of a real result to the nearest floating-point number; the
    coordinates themselves are floating-point numbers, held as rationals. *)
Variable fl : Q → Q.

(** [np.sum(points_valid, axis=1)] and [points[.,1] - points[.,0]] of one row *)
Definition coord_sum (p : Q * Q) : Q := fl (p.1 + p.2).
Definition coord_diff (p : Q * Q) : Q := fl (p.2 - p.1).

(** [points[idxs]]: an index out of range is an [IndexError]. *)
Definition take_rows (points : list (Q * Q)) (idxs : list Z) : option (list (Q * Q)) :=
  mapM (py_index points) idxs.

(** The corridor split shared by lines 109-111 and 114-116. *)
Definition corridors (points : list (Q * Q)) (band : list Z)
  : option (list Z * list Z * list Z) :=
  rows ← take_rows points band;
  let d := coord_diff <$> rows in
  Some (mask_select ((λ v, bool_decide (v < 1 # 2)%Q && bool_decide (- (1 # 2) < v)%Q) <$> d) band,
        mask_select ((λ v, bool_decide (1 # 2 < v)%Q) <$> d) band,
        mask_select ((λ v, bool_decide (v < - (1 # 2))%Q) <$> d) band).

(** Lines 102-116 of [generate_random_walks]. *)
Definition partition_nodes (points : list (Q * Q)) (valid_idxs : list Z) : option regions :=
  points_valid ← take_rows points valid_idxs;
  let s := coord_sum <$> points_valid in
  let BEGIN := mask_select ((λ v, bool_decide (v < 1 # 4)%Q) <$> s) valid_idxs in
  let END := mask_select ((λ v, bool_decide (7 # 4 < v)%Q) <$> s) valid_idxs in
  let A012 := mask_select ((λ v, bool_decide (1 # 4 < v)%Q && bool_decide (v < 1)%Q) <$> s) valid_idxs in
  '(A0, A1, A2) ← corridors points A012;
  let B012 := mask_select ((λ v, bool_decide (v < 7 # 4)%Q && bool_decide (1 < v)%Q) <$> s) valid_idxs in
  '(B0, B1_, B2_) ← corridors points B012;
  Some {| BEGIN := BEGIN; END := END; A0 := A0; A1 := A1; A2 := A2;
          B0 := B0; B1_ := B1_; B2_ := B2_ |}.

End Regions.

(** ** Undirected graphs and walks *)

(** A networkx [Graph]: every node is a key, mapped to its neighbours. *)
Abbreviation Graph := (gmap Z (gset Z)).

(** [G.to_undirected()] of the directed graph of the complex. *)
Definition undirected_neighbours (G : DiGraph) (v : Z) : gset Z :=
  set_map snd (filter (λ e : edge, e.1 = v) (edges G)) ∪
  set_map fst (filter (λ e : edge, e.2 = v) (edges G)).

Definition to_undirected (G : DiGraph) : Graph :=
  set_to_map (λ v, (v, undirected_neighbours G v)) (nodes G).

(** [w in G[v]]: there is an edge between [v] and [w]. *)
Definition adjacent (G : Graph) (v w : Z) : Prop :=
  ∃ N, G !! v = Some N ∧ w ∈ N.

Global Instance adjacent_dec G v w : Decision (adjacent G v w).
Proof.
  unfold adjacent. destruct (G !! v) as [N|] eqn:HN.
  - destruct (decide (w ∈ N)) as [Hw|Hw].
    + left. eauto.
    + right. intros (N' & HN' & Hw'). by simplify_eq.
  - right. intros (N' & HN' & _). done.
Defined.

(** Consecutive nodes of the sequence are adjacent. *)
Fixpoint is_walk (G : Graph) (p : list Z) : Prop :=
  match p with
  | u :: (v :: _) as rest => adjacent G u v ∧ is_walk G rest
  | _ => True
  end.

Section Walks.

(** Rounding of floating-point sums and differences, as for the regions. *)
Variable fl : Q → Q.

(** [nx.shortest_path(G, source, target)], the external shortest-path
    capability; [None] when the library raises. *)
Variable shortest_path : Graph → Z → Z → option (list Z).

(** Body of the loop [for i in range(m)] of [generate_random_walks]. *)
Definition random_walk (G_undir : Graph) (R : regions) (i : nat) : Rand (list Z) :=
  v_begin ← choice (BEGIN R);
  v12 ← (if decide (i `mod` 3 = 0)%nat then
           v_1 ← choice (A0 R); v_2 ← choice (B0 R); mret (v_1, v_2)
         else if decide (i `mod` 3 = 1)%nat then
           v_1 ← choice (A1 R); v_2 ← choice (B1_ R); mret (v_1, v_2)
         else
           v_1 ← choice (A2 R); v_2 ← choice (B2_ R); mret (v_1, v_2));
  v_end ← choice (END R);
  p1 ← raise_or (shortest_path G_undir v_begin v12.1);
  p2 ← raise_or (shortest_path G_undir v12.1 v12.2);
  p3 ← raise_or (shortest_path G_undir v12.2 v_end);
  mret (py_take (-1) p1 ++ py_take (-1) p2 ++ p3).

(** [generate_random_walks(G, points, valid_idxs, E, E_lookup, m)]; the
    arguments [E] and [E_lookup] are not read by the function. *)
Definition generate_random_walks (G : DiGraph) (points : list (Q * Q))
    (valid_idxs : list Z) (m : nat) : Rand (list (list Z)) :=
  R ← raise_or (partition_nodes fl points valid_idxs);
  let G_undir := to_undirected G in
  mapM (random_walk G_undir R) (seq 0 m).

End Walks.

(** ** Encoding walks as training data *)

(** [f[k] += d]; an index out of range is an [IndexError]. *)
Definition vec_add (f : list Z) (k : nat) (d : Z) : option (list Z) :=
  x ← f !! k; Some (<[k := x + d]> f).

(** The loop of [path_to_flow] over the remaining steps of the path. *)
Fixpoint path_to_flow_loop (E_lookup : gmap edge nat) (path : list Z) (f : list Z)
  : option (list Z) :=
  match path with
  | v0 :: ((v1 :: _) as rest) =>
      f' ← (if decide (v0 < v1) then
              k ← E_lookup !! (v0, v1); vec_add f k 1
            else
              k ← E_lookup !! (v1, v0); vec_add f k (-1));
      path_to_flow_loop E_lookup rest f'
  | _ => Some f
  end.

(** [path_to_flow(path, E_lookup, m)]; the entries are whole numbers,
    held exactly by the floating-point vector. *)
Definition path_to_flow (path : list Z) (E_lookup : gmap edge nat) (m : nat)
  : option (list Z) :=
  path_to_flow_loop E_lookup path (replicate m 0).

(** [np.array(G[v])]; a missing node is a [KeyError]. *)
Definition neighborhood (G : Graph) (v : Z) : option (list Z) :=
  elements <$> G !! v.

(** [neighborhood_to_onehot(Nv, w, D)]: the assignment into
    [onehot_final[:len(Nv)]] fails when the indicator does not fit. *)
Definition neighborhood_to_onehot (Nv : list Z) (w : Z) (D : nat) : option (list Z) :=
  let onehot := (λ x, if decide (x = w) then 1 else 0) <$> Nv in
  if decide (length onehot ≤ D)%nat
  then Some (onehot ++ replicate (D - length onehot) 0)
  else None.

(** Degree of a node in networkx: a self loop counts twice. *)
Definition degree (G : Graph) (v : Z) : nat :=
  match G !! v with
  | Some N => (size N + if decide (v ∈ N) then 1 else 0)%nat
  | None => 0%nat
  end.

(** [np.max(list(dict(G_undir.degree()).values()))] *)
Definition D_1hop (G : Graph) : option nat :=
  match (λ v, degree G v) <$> elements (dom G) with
  | [] => None
  | d :: ds => Some (foldl Nat.max d ds)
  end.

(** The target of one example at hop [h] (lines 273, 274 and 280):
    pivot [s[h-1]], its sorted neighbours, true next node [s[h]]. *)
Definition target (G_undir : Graph) (D : nat) (h : Z) (s : list Z) : option (list Z) :=
  pivot ← py_index s (h - 1);
  nbrs ← neighborhood G_undir pivot;
  let Nv := sorted nbrs in
  w ← py_index s h;
  neighborhood_to_onehot Nv w D.

(** Result of a computation that can exhaust the interpreter's call depth. *)
Inductive outcome (A : Type) : Type :=
  | Returns (a : A)
  | KeyError
  | RecursionError.
Arguments Returns {A} a.
Arguments KeyError {A}.
Arguments RecursionError {A}.

(** [multi_hop_neighborhood(G, v, h)], with the call depth left to the
    interpreter as the first argument. *)
Fixpoint multi_hop_neighborhood (depth : nat) (G : Graph) (v : Z) (h : Z)
  : outcome (gset Z) :=
  match depth with
  | O => RecursionError
  | S depth' =>
      match G !! v with
      | None => KeyError
      | Some N =>
          if decide (h = 1) then Returns N
          else
            foldl (λ acc nbr,
                     match acc with
                     | Returns Nv =>
                         match multi_hop_neighborhood depth' G nbr (h - 1) with
                         | Returns Nh => Returns (Nv ∪ Nh)
                         | err => err
                         end
                     | err => err
                     end)
                  (Returns ∅) (elements N)
      end
  end.

(** Every neighbour is itself a node of the graph. *)
Definition graph_closed (G : Graph) : Prop :=
  ∀ v N w, G !! v = Some N → w ∈ N → is_Some (G !! w).

(** A walk of exactly [h] edges from [v] to [w]. *)
Definition walk_of_length (G : Graph) (h : nat) (v w : Z) : Prop :=
  ∃ p, length p = S h ∧ head p = Some v ∧ last p = Some w ∧ is_walk G p.

(** ** Truncation and the train/test masks of [generate_training_data] *)

(** Line 258, for one walk. *)
Definition truncate (hops : list Z) (p : list Z) : Rand (list Z) :=
  mh ← raise_or (py_max hops);
  r ← choice_int (Z.of_nat (length p) - 4 + (mh - 1));
  mret (py_take (4 + r) p).

Definition paths_truncated (hops : list Z) (paths : list (list Z)) : Rand (list (list Z)) :=
  mapM (truncate hops) paths.

(** Lines 259, 260 and 262. *)
Definition prefixes (hops : list Z) (paths_truncated : list (list Z)) : option (list (list Z)) :=
  mapM (λ p, mh ← py_max hops; Some (py_take (- mh) p)) paths_truncated.

Definition suffixes_with_last_pref (hops : list Z) (paths_truncated : list (list Z))
  : option (list (list Z)) :=
  mapM (λ p, mh ← py_max hops; Some (py_drop (- (mh + 1)) p)) paths_truncated.

Definition last_nodes (suffixes : list (list Z)) : option (list Z) :=
  mapM (λ s, py_index s 0) suffixes.

(** [int(N * 0.8)] and [int(N * 0.2)] for an example count [N]: the
    doubles 0.8 and 0.2 lie just above the fractions, so the products
    truncate to the integer quotients for every count a run can reach. *)
Definition int_mul_08 (N : Z) : Z := (4 * N) `div` 5.
Definition int_mul_02 (N : Z) : Z := N `div` 5.

(** Lines 288-290, for [N = flows_ins[0].shape[0]] examples. *)
Definition train_test_masks (N : Z) : Rand (list Z * list Z) :=
  train_mask ← shuffle (replicate (Z.to_nat (int_mul_08 N)) 1 ++
                        replicate (Z.to_nat (int_mul_02 N)) 0);
  mret (train_mask, (λ x, 1 - x) <$> train_mask).

(** ** Vocabulary of the statements about walks and examples *)

(** Number of steps of the path that go from [a] to [b]. *)
Fixpoint traversals (a b : Z) (path : list Z) : Z :=
  match path with
  | v0 :: ((v1 :: _) as rest) =>
      (if decide (v0 = a ∧ v1 = b) then 1 else 0) + traversals a b rest
  | _ => 0
  end.

(** Number of entries of a vector equal to [v]. *)
Definition count_eq (v : Z) (l : list Z) : nat := length (filter (λ x, x = v) l).

(** The constant stream of raw draws. *)
Definition const_rng (d : nat) : rng := λ _, d.

(** Every step of the path runs along an edge of the list, in one direction or the other. *)
Fixpoint path_on_edges (E : list edge) (path : list Z) : Prop :=
  match path with
  | v0 :: ((v1 :: _) as rest) =>
      ((v0, v1) ∈ E ∨ (v1, v0) ∈ E) ∧ path_on_edges E rest
  | _ => True
  end.

(** A shortest-path capability that answers only when the target is the
    source itself or one of its neighbours. *)
Definition direct_path (G : Graph) (src tgt : Z) : option (list Z) :=
  if decide (src = tgt) then Some [src]
  else if decide (adjacent G src tgt) then Some [src; tgt]
  else None.

(** Eight points, one per region, in the order BEGIN, A0, A1, A2, B0,
    B1, B2, END, and a directed graph that links BEGIN to the three
    A-corridors, every A-corridor to its B-corridor, and those to END. *)
Definition corridor_points : list (Q * Q) :=
  [(1 # 10, 1 # 10); (2 # 5, 2 # 5); (1 # 10, 4 # 5); (4 # 5, 1 # 10);
   (3 # 5, 3 # 5); (1 # 5, 9 # 10); (9 # 10, 1 # 5); (9 # 10, 9 # 10)]%Q.

Definition corridor_graph : DiGraph :=
  {| nodes := list_to_set (seqZ 0 8);
     edges := {[ (0, 1); (0, 2); (0, 3); (1, 4); (2, 5); (3, 6);
                 (4, 7); (5, 7); (6, 7) ]} |}.

(** The path graph 0 - 1 - 2. *)
Definition path_graph3 : Graph :=
  {[ 0 := {[ 1 ]}; 1 := {[ 0; 2 ]}; 2 := {[ 1 ]} ]}.

(** ** Vocabulary of the statements about the regions *)

(** The tests that select the eight regions, in the order of
    [region_list], on the sum [s] and the difference [d] of a point. *)
Definition region_conditions (s d : Q) : list Prop :=
  [ (s < 1 # 4)%Q;
    ((1 # 4 < s)%Q ∧ (s < 1)%Q) ∧ ((d < 1 # 2)%Q ∧ (- (1 # 2) < d)%Q);
    ((1 # 4 < s)%Q ∧ (s < 1)%Q) ∧ (1 # 2 < d)%Q;
    ((1 # 4 < s)%Q ∧ (s < 1)%Q) ∧ (d < - (1 # 2))%Q;
    ((s < 7 # 4)%Q ∧ (1 < s)%Q) ∧ ((d < 1 # 2)%Q ∧ (- (1 # 2) < d)%Q);
    ((s < 7 # 4)%Q ∧ (1 < s)%Q) ∧ (1 # 2 < d)%Q;
    ((s < 7 # 4)%Q ∧ (1 < s)%Q) ∧ (d < - (1 # 2))%Q;
    (7 # 4 < s)%Q ].

(** The point lies exactly on one of the thresholds. *)
Definition on_boundary (p : Q * Q) : Prop :=
  (p.1 + p.2 == 1 # 4)%Q ∨ (p.1 + p.2 == 1)%Q ∨ (p.1 + p.2 == 7 # 4)%Q ∨
  (p.2 - p.1 == 1 # 2)%Q ∨ (p.2 - p.1 == - (1 # 2))%Q.

(** The point was sampled in the unit square [0,1) x [0,1). *)
Definition in_unit_square (p : Q * Q) : Prop :=
  ((0 <= p.1)%Q ∧ (p.1 < 1)%Q) ∧ ((0 <= p.2)%Q ∧ (p.2 < 1)%Q).

(** Numbers that the rounding must leave as they are: the thresholds,
    and the bounds 1/2 and 3/2 on the sum of a point of the unit square
    whose difference is 1/2 or -1/2. *)
Definition exact_values : list Q :=
  [1 # 4; 1 # 2; 1; 3 # 2; 7 # 4; - (1 # 2)]%Q.

(** The rounding is monotone and leaves the exact values alone. *)
Definition rounding (fl : Q → Q) : Prop :=
  (∀ a b, (a <= b)%Q → (fl a <= fl b)%Q) ∧
  Forall (λ t, (fl t == t)%Q) exact_values.

(** Six sampled points: one per band and corridor of the lower half, one on the threshold [x + y = 1]. *)
Definition sample_points : list (Q * Q) :=
  [(1 # 10, 1 # 10); (2 # 5, 2 # 5); (1 # 10, 4 # 5); (4 # 5, 1 # 10);
   (1 # 2, 1 # 2); (9 # 10, 9 # 10)]%Q.

(** ** Further parts of the program *)

(** [B1.shape[1]]; a matrix without rows is taken to have no columns. *)
Definition matrix_cols (M : matrix) : nat :=
  match M with
  | r :: _ => length r
  | [] => 0%nat
  end.

(** [conditional_incidence_matrix(B1, Nv, D)] for an integer index array
    [Nv]: [B1[Nv]] picks rows (an index out of range is an [IndexError]),
    and the assignment into [Bcond[:len(Nv), :]] fails when the rows do
    not fit, except that a single row is broadcast to the slice. *)
Definition conditional_incidence_matrix (B1 : matrix) (Nv : list Z) (D : nat)
  : option matrix :=
  rows ← mapM (py_index B1) Nv;
  if decide (length rows ≤ D ∨ length rows = 1)%nat
  then Some (take D (rows ++ replicate (D - length rows)
                                       (replicate (matrix_cols B1) 0)))
  else None.

(** ** Vocabulary of the further statements *)

(** Strict lexicographic order on tuples. *)
Definition edge_lt (e1 e2 : edge) : Prop :=
  e1.1 < e2.1 ∨ (e1.1 = e2.1 ∧ e1.2 < e2.2).

(** Row [i] of a matrix, and the product of a row with a column. *)
Definition row (M : matrix) (i : nat) : list Z := default [] (M !! i).
Definition dot (u v : list Z) : Z := vsum (zip_with Z.mul u v).

(** The graph is undirected: adjacency goes both ways. *)
Definition graph_symmetric (G : Graph) : Prop :=
  ∀ v w, adjacent G v w → adjacent G w v.

(** The indicator of [x = y]. *)
Definition ind (x y : Z) : Z := if decide (x = y) then 1 else 0.

(** The regions that walk number [i] draws its four waypoints from. *)
Definition sampled_regions (R : regions) (i : nat) : list (list Z) :=
  [ BEGIN R;
    (if decide (i `mod` 3 = 0)%nat then A0 R
     else if decide (i `mod` 3 = 1)%nat then A1 R else A2 R);
    (if decide (i `mod` 3 = 0)%nat then B0 R
     else if decide (i `mod` 3 = 1)%nat then B1_ R else B2_ R);
    END R ].

(** * Properties of the complex and of its incidence matrices *)

Example triangle_complex :
  let sc := random_SC_graph 3 [Face 2 0 1] [0; 1; 2] in
  sc_V sc = [0; 1; 2] ∧ sc_E sc = [(0, 1); (0, 2); (1, 2)] ∧
  incidience_matrices (sc_V sc) (sc_E sc) (sc_faces sc) =
    Some ([[-1; -1; 0]; [1; 0; -1]; [0; 1; 1]], [[1]; [-1]; [1]]).
Proof. vm_compute. auto. Qed.

Section Sorting.

Lemma sorted_Permutation l : sorted l ≡ₚ l.
Proof. apply merge_sort_Permutation. Qed.

Lemma sorted_edges_Permutation l : sorted_edges l ≡ₚ l.
Proof. apply merge_sort_Permutation. Qed.

Lemma sorted_Sorted l : Sorted Z.le (sorted l).
Proof. apply (Sorted_merge_sort Z.le). Qed.

Lemma sorted_face_spec f a b c :
  sorted_face f = (a, b, c) →
  a ≤ b ∧ b ≤ c ∧ [a; b; c] ≡ₚ face_nodes f.
Proof.
  unfold sorted_face. intros Hs.
  pose proof (sorted_Permutation (face_nodes f)) as Hp.
  pose proof (sorted_Sorted (face_nodes f)) as Hso.
  pose proof (Permutation_length Hp) as Hlen.
  destruct (sorted (face_nodes f)) as [|x [|y [|z [|? ?]]]]; try discriminate Hlen.
  injection Hs as -> -> ->.
  split_and!; [| |done].
  - inversion Hso as [|? ? _ Hhd]; subst. by inversion Hhd.
  - inversion Hso as [|? ? Hso' _]; subst.
    inversion Hso' as [|? ? _ Hhd]; subst. by inversion Hhd.
Qed.

Lemma sorted_face_lt f a b c :
  nondegenerate f → sorted_face f = (a, b, c) → a < b ∧ b < c.
Proof.
  intros Hnd Hs. destruct (sorted_face_spec _ _ _ _ Hs) as (Hab & Hbc & Hp).
  unfold nondegenerate in Hnd. rewrite <- Hp in Hnd.
  apply NoDup_cons in Hnd as [Ha Hnd]. apply NoDup_cons in Hnd as [Hb _].
  assert (a ≠ b) by (intros ->; apply Ha; left).
  assert (b ≠ c) by (intros ->; apply Hb; left).
  lia.
Qed.

Lemma sorted_face_elem f a b c x :
  sorted_face f = (a, b, c) →
  x ∈ face_nodes f ↔ x = a ∨ x = b ∨ x = c.
Proof.
  intros Hs. destruct (sorted_face_spec _ _ _ _ Hs) as (_ & _ & Hp).
  rewrite <- Hp. rewrite !elem_of_cons, elem_of_nil. tauto.
Qed.

Lemma sorted_pair_lt e : e.1 < e.2 → sorted_pair e = e.
Proof.
  intros Hlt. unfold sorted_pair, sorted.
  assert (merge_sort Z.le [e.1; e.2] = [e.1; e.2]) as ->.
  { apply (Sorted_unique Z.le).
    - apply (Sorted_merge_sort Z.le).
    - repeat constructor. lia.
    - apply merge_sort_Permutation. }
  by destruct e.
Qed.

End Sorting.

Section Graph.

Lemma elem_of_edges_add_face G f e :
  e ∈ edges (add_face G f) ↔ e ∈ edges G ∨ e ∈ sides f.
Proof.
  unfold add_face, sides. destruct (sorted_face f) as [[a b] c]. simpl.
  rewrite !elem_of_union, !elem_of_singleton, !elem_of_cons, elem_of_nil.
  tauto.
Qed.

Lemma elem_of_nodes_add_face G f x :
  x ∈ nodes (add_face G f) ↔ x ∈ nodes G ∨ x ∈ face_nodes f.
Proof.
  unfold add_face.
  destruct (sorted_face f) as [[a b] c] eqn:Hs. simpl.
  rewrite (sorted_face_elem _ _ _ _ x Hs). set_solver.
Qed.

Lemma elem_of_edges_foldl faces G e :
  e ∈ edges (foldl add_face G faces) ↔
  e ∈ edges G ∨ ∃ f, f ∈ faces ∧ e ∈ sides f.
Proof.
  revert G. induction faces as [|f faces IH]; intros G; simpl.
  - split; [auto|]. intros [?|(f & Hf & _)]; [done|]. by apply elem_of_nil in Hf.
  - rewrite IH, elem_of_edges_add_face. split.
    + intros [[?|?]|(g & Hg & ?)]; [by left| |].
      * right. exists f. split; [left|done].
      * right. exists g. split; [by right|done].
    + intros [?|(g & Hg & ?)]; [by left; left|].
      apply elem_of_cons in Hg as [->|Hg]; [by left; right|].
      right. eauto.
Qed.

Lemma elem_of_nodes_foldl faces G x :
  x ∈ nodes (foldl add_face G faces) ↔
  x ∈ nodes G ∨ ∃ f, f ∈ faces ∧ x ∈ face_nodes f.
Proof.
  revert G. induction faces as [|f faces IH]; intros G; simpl.
  - split; [auto|]. intros [?|(f & Hf & _)]; [done|]. by apply elem_of_nil in Hf.
  - rewrite IH, elem_of_nodes_add_face. split.
    + intros [[?|?]|(g & Hg & ?)]; [by left| |].
      * right. exists f. split; [left|done].
      * right. exists g. split; [by right|done].
    + intros [?|(g & Hg & ?)]; [by left; left|].
      apply elem_of_cons in Hg as [->|Hg]; [by left; right|].
      right. eauto.
Qed.

Variables (n : Z) (simplices : list face) (valid_idxs : list Z).
Let sc := random_SC_graph n simplices valid_idxs.

Lemma elem_of_sc_E e :
  e ∈ sc_E sc ↔ ∃ f, f ∈ sc_faces sc ∧ e ∈ sides f.
Proof.
  unfold sc, random_SC_graph. simpl.
  rewrite sorted_edges_Permutation, elem_of_elements, elem_of_edges_foldl.
  simpl. set_solver.
Qed.

Lemma elem_of_sc_V x :
  x ∈ sc_V sc ↔ 0 ≤ x < n ∨ ∃ f, f ∈ sc_faces sc ∧ x ∈ face_nodes f.
Proof.
  unfold sc, random_SC_graph. simpl.
  rewrite sorted_Permutation, elem_of_elements, elem_of_nodes_foldl.
  simpl. rewrite elem_of_union, elem_of_list_to_set, elem_of_seqZ.
  set_solver by lia.
Qed.

Lemma NoDup_sc_E : NoDup (sc_E sc).
Proof.
  unfold sc, random_SC_graph. simpl.
  rewrite sorted_edges_Permutation. apply NoDup_elements.
Qed.

Lemma NoDup_sc_V : NoDup (sc_V sc).
Proof.
  unfold sc, random_SC_graph. simpl.
  rewrite sorted_Permutation. apply NoDup_elements.
Qed.

Lemma sides_elem_of_face f e :
  e ∈ sides f → e.1 ∈ face_nodes f ∧ e.2 ∈ face_nodes f.
Proof.
  unfold sides. destruct (sorted_face f) as [[a b] c] eqn:Hs.
  rewrite !(sorted_face_elem _ _ _ _ _ Hs).
  rewrite !elem_of_cons, elem_of_nil.
  intros [->|[->|[->|[]]]]; simpl; tauto.
Qed.

Lemma sides_lt f e : nondegenerate f → e ∈ sides f → e.1 < e.2.
Proof.
  intros Hnd. unfold sides. destruct (sorted_face f) as [[a b] c] eqn:Hs.
  destruct (sorted_face_lt _ _ _ _ Hnd Hs).
  rewrite !elem_of_cons, elem_of_nil.
  intros [->|[->|[->|[]]]]; simpl; lia.
Qed.

Hypothesis faces_nondegenerate : Forall nondegenerate (sc_faces sc).

Lemma sc_E_lt e : e ∈ sc_E sc → e.1 < e.2.
Proof.
  rewrite elem_of_sc_E. intros (f & Hf & He).
  eapply sides_lt; [|done].
  by eapply (proj1 (Forall_forall _ _) faces_nondegenerate).
Qed.

Lemma sc_E_endpoints e : e ∈ sc_E sc → e.1 ∈ sc_V sc ∧ e.2 ∈ sc_V sc.
Proof.
  rewrite elem_of_sc_E. intros (f & Hf & He).
  destruct (sides_elem_of_face _ _ He).
  rewrite !elem_of_sc_V. split; right; eauto.
Qed.

End Graph.

Section Vectors.

Lemma column_fmap {A B} (g : A → B → Z) (rows : list A) (cols : list B) j y :
  cols !! j = Some y →
  column ((λ x, g x <$> cols) <$> rows) j = (λ x, g x y) <$> rows.
Proof.
  intros Hj. unfold column.
  induction rows as [|x rows IH]; [done|].
  rewrite !fmap_cons. cbn [omap list_omap].
  rewrite list_lookup_fmap, Hj. simpl. f_equal. apply IH.
Qed.

Lemma entry_fmap {A B} (g : A → B → Z) (rows : list A) (cols : list B) i j x y :
  rows !! i = Some x → cols !! j = Some y →
  entry ((λ x, g x <$> cols) <$> rows) i j = Some (g x y).
Proof.
  intros Hi Hj. unfold entry.
  rewrite list_lookup_fmap, Hi. simpl. by rewrite list_lookup_fmap, Hj.
Qed.

Lemma count_nonzero_fmap {A} (g : A → Z) (l : list A) :
  count_nonzero (g <$> l) = length (filter (λ x, g x ≠ 0) l).
Proof.
  unfold count_nonzero. induction l as [|x l IH]; [done|].
  rewrite fmap_cons, !filter_cons.
  destruct (decide (g x ≠ 0)); simpl; by rewrite IH.
Qed.

(** A duplicate-free list meets a duplicate-free sublist in as many
    places as the sublist is long. *)
Lemma length_filter_NoDup {A} `{EqDecision A} (P : A → Prop)
    `{∀ x, Decision (P x)} (l k : list A) :
  NoDup l → NoDup k → (∀ x, P x ∧ x ∈ l ↔ x ∈ k) →
  length (filter P l) = length k.
Proof.
  intros Hl Hk Hiff. apply Permutation_length, NoDup_Permutation; [|done|].
  - by apply NoDup_filter.
  - intros x. by rewrite list_elem_of_filter.
Qed.

Lemma vsum_fmap_zero {A} (g : A → Z) (l : list A) :
  (∀ x, x ∈ l → g x = 0) → vsum (g <$> l) = 0.
Proof.
  induction l as [|x l IH]; intros Hz; [done|].
  rewrite fmap_cons. unfold vsum in *. cbn [foldr].
  rewrite IH, Hz; [done|left|].
  intros y Hy. apply Hz. by right.
Qed.

End Vectors.

Section B2.

Lemma B2_entry_side e f a b c :
  e.1 < e.2 → nondegenerate f → sorted_face f = (a, b, c) →
  B2_entry e f =
    if decide (e = (a, b) ∨ e = (b, c)) then 1
    else if decide (e = (a, c)) then -1 else 0.
Proof.
  intros Hlt Hnd Hs. unfold B2_entry.
  rewrite (sorted_pair_lt _ Hlt), Hs.
  destruct (sorted_face_lt _ _ _ _ Hnd Hs) as [Hab Hbc].
  destruct e as [e0 e1]. simpl in *.
  destruct (decide (in1d_all [e0; e1] (face_nodes f))) as [Hin|Hnin].
  - unfold in1d_all in Hin. rewrite !Forall_cons in Hin.
    destruct Hin as (H0 & H1 & _).
    rewrite (sorted_face_elem _ _ _ _ _ Hs) in H0.
    rewrite (sorted_face_elem _ _ _ _ _ Hs) in H1.
    repeat case_decide; try done; exfalso;
      repeat match goal with
             | H : _ ∨ _ |- _ => destruct H
             | H : ¬ (_ ∨ _) |- _ => apply Decidable.not_or in H as [? ?]
             | H : (_, _) = (_, _) |- _ => injection H as ? ?
             end; subst; try lia; congruence.
  - repeat case_decide; try done; exfalso; apply Hnin;
      unfold in1d_all; rewrite !Forall_cons, !(sorted_face_elem _ _ _ _ _ Hs);
      repeat match goal with
             | H : _ ∨ _ |- _ => destruct H
             | H : (_, _) = (_, _) |- _ => injection H as ? ?
             end; subst; auto.
Qed.

Lemma B2_entry_nonzero e f :
  e.1 < e.2 → nondegenerate f → B2_entry e f ≠ 0 ↔ e ∈ sides f.
Proof.
  intros Hlt Hnd. unfold sides.
  destruct (sorted_face f) as [[a b] c] eqn:Hs.
  rewrite (B2_entry_side _ _ _ _ _ Hlt Hnd Hs).
  rewrite !elem_of_cons, elem_of_nil.
  repeat case_decide; intuition (try done; try lia).
Qed.

Lemma NoDup_sides f : nondegenerate f → NoDup (sides f).
Proof.
  intros Hnd. unfold sides.
  destruct (sorted_face f) as [[a b] c] eqn:Hs.
  destruct (sorted_face_lt _ _ _ _ Hnd Hs) as [Hab Hbc].
  rewrite !NoDup_cons, !elem_of_cons, !elem_of_nil.
  split_and!; [| |tauto|apply NoDup_nil_2];
    intros H; repeat destruct H as [H|H]; try done;
    simplify_eq; lia.
Qed.

End B2.

Section Claims_incidence.

Variables (n : Z) (simplices : list face) (valid_idxs : list Z).
Let sc := random_SC_graph n simplices valid_idxs.

Lemma incidence_matrix_sc :
  incidence_matrix (sc_V sc) (sc_E sc) =
  Some ((λ x, incidence_entry x <$> sc_E sc) <$> sc_V sc).
Proof.
  unfold incidence_matrix. case_decide as Hall; [done|].
  exfalso. apply Hall, Forall_forall. intros e He. right.
  by apply sc_E_endpoints.
Qed.

Lemma incidience_matrices_sc :
  incidience_matrices (sc_V sc) (sc_E sc) (sc_faces sc) =
  Some ((λ x, incidence_entry x <$> sc_E sc) <$> sc_V sc,
        B2_matrix (sc_E sc) (sc_faces sc)).
Proof. unfold incidience_matrices. by rewrite incidence_matrix_sc. Qed.

End Claims_incidence.

(** C1. On a complex whose retained faces are proper triangles, the
    incidence matrices are produced, and for every retained face [f] with
    sorted corners [a < b < c]: the sides [(a,b)], [(b,c)] and [(a,c)] are
    in the edge list; the column of [B2] for [f] holds +1 in the rows of
    [(a,b)] and [(b,c)], -1 in the row of [(a,c)] and 0 in the row of every
    other edge; and exactly three of its entries are nonzero. *)
Theorem B2_column_signed_boundary (n : Z) (simplices : list face) (valid_idxs : list Z) :
  let sc := random_SC_graph n simplices valid_idxs in
  Forall nondegenerate (sc_faces sc) →
  ∃ B1 B2,
    incidience_matrices (sc_V sc) (sc_E sc) (sc_faces sc) = Some (B1, B2) ∧
    ∀ (f_idx : nat) (f : face) (a b c : Z),
      sc_faces sc !! f_idx = Some f → sorted_face f = (a, b, c) →
      (a < b ∧ b < c) ∧
      ((a, b) ∈ sc_E sc ∧ (b, c) ∈ sc_E sc ∧ (a, c) ∈ sc_E sc) ∧
      (∀ (e_idx : nat) (e : edge), sc_E sc !! e_idx = Some e →
         entry B2 e_idx f_idx =
           Some (if decide (e = (a, b) ∨ e = (b, c)) then 1
                 else if decide (e = (a, c)) then -1 else 0)) ∧
      length (column B2 f_idx) = length (sc_E sc) ∧
      count_nonzero (column B2 f_idx) = 3%nat.
Proof.
  intros sc Hnd. eexists _, _. split; [apply incidience_matrices_sc|].
  fold sc. intros f_idx f a b c Hf Hs.
  assert (f ∈ sc_faces sc) as Hfin by (by eapply list_elem_of_lookup_2).
  assert (nondegenerate f) as Hndf
    by (by eapply (proj1 (Forall_forall _ _) Hnd)).
  assert (sides f = [(a, b); (b, c); (a, c)]) as Hsides
    by (unfold sides; by rewrite Hs).
  assert (∀ e, e ∈ sides f → e ∈ sc_E sc) as Hsub.
  { intros e He. apply elem_of_sc_E. eauto. }
  split; [by eapply sorted_face_lt|].
  split.
  { split_and!; apply Hsub; rewrite Hsides; set_solver. }
  unfold B2_matrix. split; [|split].
  - intros e_idx e He. rewrite (entry_fmap _ _ _ _ _ _ _ He Hf). f_equal.
    apply B2_entry_side; [|done..].
    apply (sc_E_lt n simplices valid_idxs); [done|].
    by eapply list_elem_of_lookup_2.
  - rewrite (column_fmap _ _ _ _ _ Hf). by rewrite length_fmap.
  - rewrite (column_fmap _ _ _ _ _ Hf), count_nonzero_fmap.
    rewrite (length_filter_NoDup _ _ (sides f)).
    + by rewrite Hsides.
    + apply NoDup_sc_E.
    + by apply NoDup_sides.
    + intros e. split.
      * intros [Hnz He]. apply B2_entry_nonzero in Hnz; [done| |done].
        by apply (sc_E_lt n simplices valid_idxs).
      * intros He. split; [|by apply Hsub].
        apply B2_entry_nonzero; [|done..].
        by eapply sides_lt.
Qed.

Lemma B2_column_signed_boundary_witness :
  let sc := random_SC_graph 4 [Face 2 0 1; Face 1 3 2] [0; 1; 2; 3] in
  Forall nondegenerate (sc_faces sc) ∧
  ∃ B1 B2,
    incidience_matrices (sc_V sc) (sc_E sc) (sc_faces sc) = Some (B1, B2) ∧
    ∀ (f_idx : nat) (f : face) (a b c : Z),
      sc_faces sc !! f_idx = Some f → sorted_face f = (a, b, c) →
      (a < b ∧ b < c) ∧
      ((a, b) ∈ sc_E sc ∧ (b, c) ∈ sc_E sc ∧ (a, c) ∈ sc_E sc) ∧
      (∀ (e_idx : nat) (e : edge), sc_E sc !! e_idx = Some e →
         entry B2 e_idx f_idx =
           Some (if decide (e = (a, b) ∨ e = (b, c)) then 1
                 else if decide (e = (a, c)) then -1 else 0)) ∧
      length (column B2 f_idx) = length (sc_E sc) ∧
      count_nonzero (column B2 f_idx) = 3%nat.
Proof.
  assert (Forall nondegenerate
            (sc_faces (random_SC_graph 4 [Face 2 0 1; Face 1 3 2] [0; 1; 2; 3]))) as Hnd.
  { by_decide. }
  split; [exact Hnd|].
  exact (B2_column_signed_boundary 4 [Face 2 0 1; Face 1 3 2] [0; 1; 2; 3] Hnd).
Defined.

Section B1.

Lemma Sorted_seqZ m n : Sorted Z.le (seqZ m n).
Proof.
  remember (Z.to_nat n) as k eqn:Hk. revert m n Hk.
  induction k as [|k IH]; intros m n Hk.
  - rewrite seqZ_nil by lia. constructor.
  - rewrite seqZ_cons by lia. constructor; [apply IH; lia|].
    destruct (decide (Z.pred n ≤ 0)).
    + rewrite seqZ_nil by lia. constructor.
    + rewrite seqZ_cons by lia. constructor. lia.
Qed.

Lemma sorted_range (l : list Z) n :
  NoDup l → (∀ x, x ∈ l ↔ 0 ≤ x < n) → sorted l = seqZ 0 n.
Proof.
  intros Hnd Hiff.
  apply (Sorted_unique_strong Z.le).
  - intros; lia.
  - apply sorted_Sorted.
  - apply Sorted_seqZ.
  - rewrite sorted_Permutation. apply NoDup_Permutation; [done|apply NoDup_seqZ|].
    intros x. rewrite Hiff, elem_of_seqZ. lia.
Qed.

(** Sum of a vector that is zero away from one place of a duplicate-free index list. *)
Lemma vsum_indicator (l : list Z) a v :
  NoDup l → a ∈ l →
  vsum ((λ x, if decide (x = a) then v else 0) <$> l) = v.
Proof.
  induction l as [|y l IH]; intros Hnd Ha; [by apply elem_of_nil in Ha|].
  apply NoDup_cons in Hnd as [Hy Hnd].
  rewrite fmap_cons. unfold vsum in *. cbn [foldr].
  destruct (decide (y = a)) as [->|Hne].
  - fold (vsum ((λ x, if decide (x = a) then v else 0) <$> l)).
    rewrite vsum_fmap_zero; [lia|].
    intros x Hx. case_decide; [congruence|done].
  - apply elem_of_cons in Ha as [->|Ha]; [done|]. rewrite IH by done. lia.
Qed.

Lemma vsum_fmap_add {A} (g h : A → Z) (l : list A) :
  vsum ((λ x, g x + h x) <$> l) = vsum (g <$> l) + vsum (h <$> l).
Proof.
  unfold vsum. induction l as [|x l IH]; [done|].
  rewrite !fmap_cons. cbn [foldr]. rewrite IH. lia.
Qed.

Lemma incidence_entry_lt x a b :
  a < b →
  incidence_entry x (a, b) =
    if decide (x = a) then -1 else if decide (x = b) then 1 else 0.
Proof. intros Hlt. unfold incidence_entry. simpl. case_decide; [lia|done]. Qed.

Lemma incidence_column_sum (V : list Z) a b :
  NoDup V → a ∈ V → b ∈ V → a < b →
  vsum ((λ x, incidence_entry x (a, b)) <$> V) = 0.
Proof.
  intros Hnd Ha Hb Hlt.
  rewrite (list_fmap_ext _
    (λ x, (if decide (x = a) then -1 else 0) + (if decide (x = b) then 1 else 0)) V).
  - rewrite vsum_fmap_add, !vsum_indicator by done. lia.
  - intros _ x _. rewrite incidence_entry_lt by done.
    repeat case_decide; lia.
Qed.

Lemma incidence_column_count (V : list Z) a b :
  NoDup V → a ∈ V → b ∈ V → a < b →
  count_nonzero ((λ x, incidence_entry x (a, b)) <$> V) = 2%nat.
Proof.
  intros Hnd Ha Hb Hlt.
  rewrite count_nonzero_fmap, (length_filter_NoDup _ _ [a; b]); [done..| |].
  - rewrite !NoDup_cons, !elem_of_cons, !elem_of_nil.
    split_and!; [|tauto|apply NoDup_nil_2]. intros [?|[]]. lia.
  - intros x. rewrite incidence_entry_lt by done.
    rewrite !elem_of_cons, elem_of_nil.
    repeat case_decide; subst; intuition (try done; try lia).
Qed.

End B1.

Section Claims_B1.

Variables (n : Z) (simplices : list face) (valid_idxs : list Z).
Let sc := random_SC_graph n simplices valid_idxs.

Lemma sc_V_range :
  Forall (in_range n) (sc_faces sc) → sc_V sc = seqZ 0 n.
Proof.
  intros Hr. unfold sc, random_SC_graph. cbn [sc_V].
  apply sorted_range; [apply NoDup_elements|].
  intros x. rewrite elem_of_elements, elem_of_nodes_foldl. simpl.
  rewrite elem_of_union, elem_of_list_to_set, elem_of_seqZ. split.
  - intros [[Hx|Hx]|(f & Hf & Hx)]; [by apply not_elem_of_empty in Hx|lia|].
    pose proof (proj1 (Forall_forall _ _) Hr f Hf) as Hrf.
    apply (proj1 (Forall_forall _ _) Hrf x Hx).
  - intros Hx. left. right. lia.
Qed.

End Claims_B1.

(** C2. On a complex whose retained faces are proper triangles over the
    [n] sampled points, the rows of [B1] are the nodes [0 .. n-1] in
    order, and for every edge [(a,b)] of the edge list: [a < b]; its column
    of [B1] holds -1 in row [a], +1 in row [b] and 0 in every other row;
    exactly two entries of the column are nonzero and the column sums to 0. *)
Theorem B1_column_oriented_boundary (n : Z) (simplices : list face) (valid_idxs : list Z) :
  let sc := random_SC_graph n simplices valid_idxs in
  Forall nondegenerate (sc_faces sc) →
  Forall (in_range n) (sc_faces sc) →
  ∃ B1 B2,
    incidience_matrices (sc_V sc) (sc_E sc) (sc_faces sc) = Some (B1, B2) ∧
    sc_V sc = seqZ 0 n ∧
    ∀ (e_idx : nat) (a b : Z),
      sc_E sc !! e_idx = Some (a, b) →
      (0 ≤ a ∧ a < b ∧ b < n) ∧
      entry B1 (Z.to_nat a) e_idx = Some (-1) ∧
      entry B1 (Z.to_nat b) e_idx = Some 1 ∧
      (∀ i : nat, (i < length (sc_V sc))%nat →
         i ≠ Z.to_nat a → i ≠ Z.to_nat b → entry B1 i e_idx = Some 0) ∧
      count_nonzero (column B1 e_idx) = 2%nat ∧
      vsum (column B1 e_idx) = 0.
Proof.
  intros sc Hnd Hr. eexists _, _. split; [apply incidience_matrices_sc|].
  subst sc. set (sc := random_SC_graph n simplices valid_idxs) in *.
  pose proof (sc_V_range n simplices valid_idxs Hr) as HV.
  cbv zeta in HV. fold sc in HV.
  split; [done|]. intros e_idx a b He.
  assert ((a, b) ∈ sc_E sc) as Hin by (by eapply list_elem_of_lookup_2).
  pose proof (sc_E_lt n simplices valid_idxs Hnd _ Hin) as Hlt. simpl in Hlt.
  destruct (sc_E_endpoints n simplices valid_idxs _ Hin) as [Ha Hb].
  cbv zeta in Ha, Hb. cbn [fst snd] in Ha, Hb. fold sc in Ha, Hb.
  assert (0 ≤ a < n ∧ 0 ≤ b < n) as [Hra Hrb].
  { rewrite HV, !elem_of_seqZ in Ha, Hb. lia. }
  assert (∀ i : nat, (i < length (sc_V sc))%nat →
            entry ((λ x, incidence_entry x <$> sc_E sc) <$> sc_V sc) i e_idx =
            Some (incidence_entry (Z.of_nat i) (a, b))) as Hentry.
  { intros i Hi. apply entry_fmap; [|done].
    rewrite HV in Hi |- *. rewrite length_seqZ in Hi.
    rewrite lookup_seqZ_lt by lia. done. }
  assert (length (sc_V sc) = Z.to_nat n) as Hlen by (by rewrite HV, length_seqZ).
  split; [lia|]. split_and!.
  - rewrite Hentry by lia. rewrite incidence_entry_lt by done.
    rewrite decide_True by lia. done.
  - rewrite Hentry by lia. rewrite incidence_entry_lt by done.
    rewrite decide_False, decide_True by lia. done.
  - intros i Hi Hia Hib. rewrite Hentry by done.
    rewrite incidence_entry_lt by done.
    rewrite !decide_False by lia. done.
  - rewrite (column_fmap _ _ _ _ _ He).
    apply incidence_column_count; [apply NoDup_sc_V|done..].
  - rewrite (column_fmap _ _ _ _ _ He).
    apply incidence_column_sum; [apply NoDup_sc_V|done..].
Qed.

Lemma B1_column_oriented_boundary_witness :
  let sc := random_SC_graph 5 [Face 2 0 1; Face 1 3 2] [0; 1; 2; 3] in
  (Forall nondegenerate (sc_faces sc) ∧ Forall (in_range 5) (sc_faces sc)) ∧
  ∃ B1 B2,
    incidience_matrices (sc_V sc) (sc_E sc) (sc_faces sc) = Some (B1, B2) ∧
    sc_V sc = seqZ 0 5 ∧
    ∀ (e_idx : nat) (a b : Z),
      sc_E sc !! e_idx = Some (a, b) →
      (0 ≤ a ∧ a < b ∧ b < 5) ∧
      entry B1 (Z.to_nat a) e_idx = Some (-1) ∧
      entry B1 (Z.to_nat b) e_idx = Some 1 ∧
      (∀ i : nat, (i < length (sc_V sc))%nat →
         i ≠ Z.to_nat a → i ≠ Z.to_nat b → entry B1 i e_idx = Some 0) ∧
      count_nonzero (column B1 e_idx) = 2%nat ∧
      vsum (column B1 e_idx) = 0.
Proof.
  assert (Forall nondegenerate
            (sc_faces (random_SC_graph 5 [Face 2 0 1; Face 1 3 2] [0; 1; 2; 3]))) as Hnd
    by by_decide.
  assert (Forall (in_range 5)
            (sc_faces (random_SC_graph 5 [Face 2 0 1; Face 1 3 2] [0; 1; 2; 3]))) as Hr
    by by_decide.
  split; [by split|].
  exact (B1_column_oriented_boundary 5 [Face 2 0 1; Face 1 3 2] [0; 1; 2; 3] Hnd Hr).
Defined.

(** * Properties of the training encoder *)

Section Rand_monad.

Lemma Rand_bind_Some {A B} (m : Rand A) (f : A → Rand B) s b s'' :
  (m ≫= f) s = Some (b, s'') ↔
  ∃ a s', m s = Some (a, s') ∧ f a s' = Some (b, s'').
Proof.
  unfold mbind, Rand_bind. destruct (m s) as [[a s']|]; split.
  - eauto.
  - by intros (? & ? & [= <- <-] & ?).
  - done.
  - by intros (? & ? & ? & _).
Qed.

Lemma Rand_bind_None {A B} (m : Rand A) (f : A → Rand B) s :
  (m ≫= f) s = None ↔
  m s = None ∨ ∃ a s', m s = Some (a, s') ∧ f a s' = None.
Proof.
  unfold mbind, Rand_bind. destruct (m s) as [[a s']|]; split; eauto.
  - intros [?|(? & ? & [= <- <-] & ?)]; done.
Qed.

Lemma Rand_mapM_cons {A B} (f : A → Rand B) x l :
  mapM f (x :: l) = y ← f x; k ← mapM f l; mret (y :: k).
Proof. done. Qed.

Lemma choice_int_Some k s :
  0 < k →
  choice_int k s = Some (Z.of_nat (s 0%nat) `mod` k, λ i, s (S i)).
Proof. intros Hk. unfold choice_int. by rewrite decide_True. Qed.

Lemma choice_int_None k s : k ≤ 0 → choice_int k s = None.
Proof. intros Hk. unfold choice_int. rewrite decide_False; [done|lia]. Qed.

Lemma choice_int_range k s r s' :
  choice_int k s = Some (r, s') → 0 ≤ r < k.
Proof.
  unfold choice_int. case_decide; [|done]. intros [= <- _].
  by apply Z.mod_pos_bound.
Qed.

End Rand_monad.

Section Truncation.

Lemma truncate_None hops mh p s :
  py_max hops = Some mh →
  Z.of_nat (length p) - 4 + (mh - 1) ≤ 0 →
  truncate hops p s = None.
Proof.
  intros Hmh Hk. unfold truncate. apply Rand_bind_None. right.
  exists mh, s. split; [by unfold raise_or; rewrite Hmh|].
  apply Rand_bind_None. left. by apply choice_int_None.
Qed.

(** What the truncation does on a walk whose window is not empty. *)
Lemma truncate_Some hops mh p s :
  py_max hops = Some mh →
  0 < Z.of_nat (length p) - 4 + (mh - 1) →
  let r := Z.of_nat (s 0%nat) `mod` (Z.of_nat (length p) - 4 + (mh - 1)) in
  truncate hops p s = Some (take (Z.to_nat (4 + r)) p, λ i, s (S i)).
Proof.
  intros Hmh Hk r. unfold truncate, raise_or, mbind, Rand_bind. rewrite Hmh.
  rewrite choice_int_Some by done. unfold mret, Rand_ret, py_take, py_bound.
  assert (0 ≤ r) by (apply Z.mod_pos_bound; lia).
  rewrite decide_False by lia. done.
Qed.

End Truncation.

(** C9. When the window [len(p) - 4 + (max(hops) - 1)] of a walk [p] is
    not positive, truncating [p] raises, and so does the truncation of any
    batch of walks that contains [p]: no truncated walk is produced. *)
Theorem truncation_fails_on_short_walk (hops : list Z) (mh : Z)
    (paths : list (list Z)) (p : list Z) (s : rng) :
  py_max hops = Some mh →
  p ∈ paths →
  Z.of_nat (length p) - 4 + (mh - 1) ≤ 0 →
  truncate hops p s = None ∧ paths_truncated hops paths s = None.
Proof.
  intros Hmh Hin Hk. split; [by eapply truncate_None|].
  unfold paths_truncated. revert s.
  induction paths as [|q paths IH]; intros s; [by apply elem_of_nil in Hin|].
  rewrite Rand_mapM_cons. apply Rand_bind_None.
  apply elem_of_cons in Hin as [<-|Hin].
  - left. by eapply truncate_None.
  - destruct (truncate hops q s) as [[q' s']|] eqn:Hq; [right|by left].
    exists q', s'. split; [done|].
    apply Rand_bind_None. left. by apply IH.
Qed.

Lemma truncation_fails_on_short_walk_witness :
  (py_max [1] = Some 1 ∧ [0; 1; 2; 3] ∈ [[0; 1; 2; 3]] ∧
   Z.of_nat (length [0; 1; 2; 3]) - 4 + (1 - 1) ≤ 0) ∧
  truncate [1] [0; 1; 2; 3] (const_rng 0) = None ∧
  paths_truncated [1] [[0; 1; 2; 3]] (const_rng 0) = None.
Proof.
  assert (py_max [1] = Some 1) as H1 by reflexivity.
  assert ([0; 1; 2; 3] ∈ [[0; 1; 2; 3]]) as H2 by by_decide.
  assert (Z.of_nat (length [0; 1; 2; 3]) - 4 + (1 - 1) ≤ 0) as H3 by (simpl; lia).
  split; [done|].
  exact (truncation_fails_on_short_walk [1] 1 [[0; 1; 2; 3]] [0; 1; 2; 3]
           (const_rng 0) H1 H2 H3).
Defined.

(** C3, at a walk of ten nodes with hop set (1,): the window has six
    lengths, and the draw 5 keeps nine nodes, more than [4 + max(hops) - 1 = 4]. *)
Theorem truncation_exceeds_hop_window :
  py_max [1] = Some 1 ∧
  ∃ s', truncate [1] (seqZ 0 10) (const_rng 5) = Some (seqZ 0 9, s') ∧
        4 + 1 - 1 < Z.of_nat (length (seqZ 0 9)).
Proof.
  split; [done|].
  eexists. split.
  - rewrite (truncate_Some [1] 1); [|done|by vm_compute]. reflexivity.
  - by vm_compute.
Qed.

(** The lengths the truncation can give: from 4 up to the walk's own
    length, whatever the hop set. *)
Lemma truncate_length hops mh p s q s' :
  py_max hops = Some mh → (4 ≤ length p)%nat →
  truncate hops p s = Some (q, s') →
  (4 ≤ length q ≤ length p)%nat ∧
  Z.of_nat (length q) ≤ Z.of_nat (length p) + mh - 2.
Proof.
  intros Hmh Hlen Htr.
  destruct (decide (0 < Z.of_nat (length p) - 4 + (mh - 1))) as [Hk|Hk].
  - rewrite (truncate_Some _ _ _ _ Hmh Hk) in Htr. injection Htr as <- _.
    rewrite length_take.
    pose proof (Z.mod_pos_bound (Z.of_nat (s 0%nat)) _ Hk). lia.
  - rewrite (truncate_None _ _ _ _ Hmh) in Htr; [done|lia].
Qed.

Section Masks.

Lemma count_eq_cons v x l :
  count_eq v (x :: l) = ((if decide (x = v) then 1 else 0) + count_eq v l)%nat.
Proof. unfold count_eq. rewrite filter_cons. by case_decide. Qed.

Lemma count_eq_app v l k : count_eq v (l ++ k) = (count_eq v l + count_eq v k)%nat.
Proof. unfold count_eq. by rewrite filter_app, length_app. Qed.

Lemma count_eq_replicate v n x :
  count_eq v (replicate n x) = if decide (x = v) then n else 0%nat.
Proof.
  induction n as [|n IH]; simpl; [by case_decide|].
  rewrite count_eq_cons, IH. by case_decide.
Qed.

Lemma count_eq_insert v (l : list Z) i a b :
  l !! i = Some a →
  (count_eq v (<[i := b]> l) + (if decide (a = v) then 1 else 0) =
   count_eq v l + (if decide (b = v) then 1 else 0))%nat.
Proof.
  revert i. induction l as [|x l IH]; intros i Hi; [done|].
  destruct i as [|i]; simpl in *.
  - injection Hi as ->. rewrite !count_eq_cons. lia.
  - rewrite !count_eq_cons. specialize (IH _ Hi). lia.
Qed.

Lemma swap_length i j x : length (swap i j x) = length x.
Proof.
  unfold swap. destruct (x !! i), (x !! j); by rewrite ?length_insert.
Qed.

Lemma swap_count_eq v i j x : count_eq v (swap i j x) = count_eq v x.
Proof.
  unfold swap. destruct (x !! i) as [a|] eqn:Hi; [|done].
  destruct (x !! j) as [b|] eqn:Hj; [|done].
  pose proof (count_eq_insert v x i a b Hi) as H1.
  assert (<[i := b]> x !! j = Some b) as Hj'.
  { destruct (decide (i = j)) as [->|Hne].
    - apply list_lookup_insert_eq. by eapply lookup_lt_Some.
    - by rewrite list_lookup_insert_ne. }
  pose proof (count_eq_insert v _ j b a Hj') as H2. lia.
Qed.

Lemma shuffle_from_spec i x s :
  ∃ y s', shuffle_from i x s = Some (y, s') ∧
          length y = length x ∧ ∀ v, count_eq v y = count_eq v x.
Proof.
  revert x s. induction i as [|i IH]; intros x s; simpl.
  - by eexists _, _.
  - unfold mbind, Rand_bind. rewrite choice_int_Some by lia.
    destruct (IH (swap (S i) (Z.to_nat (Z.of_nat (s 0%nat) `mod` Z.of_nat (S i))) x)
                 (λ i, s (S i))) as (y & s' & -> & Hlen & Hcnt).
    exists y, s'. split; [done|]. rewrite Hlen, swap_length. split; [done|].
    intros v. by rewrite Hcnt, swap_count_eq.
Qed.

(** What the two masks are for [N] examples: [int(0.8 N)] ones and
    [int(0.2 N)] zeros in the train mask, and the test mask its complement. *)
Lemma train_test_masks_spec N s :
  0 ≤ N →
  ∃ train_mask test_mask s',
    train_test_masks N s = Some (train_mask, test_mask, s') ∧
    Z.of_nat (length train_mask) = int_mul_08 N + int_mul_02 N ∧
    length test_mask = length train_mask ∧
    Z.of_nat (count_eq 1 train_mask) = int_mul_08 N ∧
    Z.of_nat (count_eq 0 train_mask) = int_mul_02 N ∧
    ∀ i x, train_mask !! i = Some x →
           (x = 0 ∨ x = 1) ∧ ∃ y, test_mask !! i = Some y ∧ x + y = 1.
Proof.
  intros HN. unfold train_test_masks, shuffle, mbind, Rand_bind.
  set (base := replicate (Z.to_nat (int_mul_08 N)) 1 ++
               replicate (Z.to_nat (int_mul_02 N)) 0).
  destruct (shuffle_from_spec (length base - 1) base s)
    as (y & s' & -> & Hlen & Hcnt).
  assert (0 ≤ int_mul_08 N ∧ 0 ≤ int_mul_02 N) as [H8 H2].
  { unfold int_mul_08, int_mul_02. split; apply Z.div_pos; lia. }
  assert (length base = (Z.to_nat (int_mul_08 N) + Z.to_nat (int_mul_02 N))%nat) as Hbase.
  { unfold base. by rewrite length_app, !length_replicate. }
  assert (∀ v, count_eq v base =
               ((if decide (1%Z = v) then Z.to_nat (int_mul_08 N) else 0) +
                (if decide (0%Z = v) then Z.to_nat (int_mul_02 N) else 0))%nat) as Hcb.
  { intros v. unfold base. by rewrite count_eq_app, !count_eq_replicate. }
  eexists _, _, _. split; [reflexivity|]. split_and!.
  - rewrite Hlen, Hbase. lia.
  - by rewrite length_fmap.
  - rewrite Hcnt, Hcb. simpl. lia.
  - rewrite Hcnt, Hcb. simpl. lia.
  - intros i x Hi. rewrite list_lookup_fmap, Hi. simpl.
    assert (x = 0 ∨ x = 1) as Hx.
    { destruct (decide (x = 0)) as [|H0]; [by left|].
      destruct (decide (x = 1)) as [|H1]; [by right|]. exfalso.
      assert (x ∈ y) as Hxy by (by eapply list_elem_of_lookup_2).
      assert (count_eq x y ≠ 0)%nat as Hpos.
      { unfold count_eq. intros Hz. apply length_zero_iff_nil in Hz.
        eapply (filter_nil_not_elem_of _ _ x Hz); done. }
      rewrite Hcnt, Hcb in Hpos. rewrite !decide_False in Hpos by done. done. }
    split; [done|]. eexists. split; [done|]. lia.
Qed.

End Masks.

(** C4, at three examples: the train mask holds [int(2.4) = 2] ones and
    [int(0.6) = 0] zeros, so both masks have two entries, one fewer
    than there are examples. *)
Theorem masks_too_short_for_three_examples (s : rng) :
  ∃ train_mask test_mask s',
    train_test_masks 3 s = Some (train_mask, test_mask, s') ∧
    length train_mask = 2%nat ∧ length test_mask = 2%nat ∧
    Z.of_nat (length train_mask) ≠ 3.
Proof.
  destruct (train_test_masks_spec 3 s) as (tr & te & s' & Heq & Hlen & Hte & _);
    [lia|].
  exists tr, te, s'. split; [done|].
  change (int_mul_08 3 + int_mul_02 3) with 2 in Hlen. lia.
Qed.

Section Onehot.

Lemma count_eq_indicator (Nv : list Z) w :
  NoDup Nv →
  count_eq 1 ((λ x, if decide (x = w) then 1 else 0) <$> Nv) =
    if decide (w ∈ Nv) then 1%nat else 0%nat.
Proof.
  induction Nv as [|x Nv IH]; intros Hnd.
  - rewrite decide_False; [done|]. apply not_elem_of_nil.
  - apply NoDup_cons in Hnd as [Hx Hnd]. rewrite fmap_cons, count_eq_cons, IH by done.
    destruct (decide (x = w)) as [->|Hne].
    + rewrite decide_True by done. rewrite (decide_False (P := w ∈ Nv)) by done.
      rewrite decide_True; [done|left].
    + rewrite decide_False by done. simpl.
      destruct (decide (w ∈ Nv)) as [Hw|Hw].
      * rewrite decide_True; [done|by right].
      * rewrite decide_False; [done|].
        rewrite elem_of_cons. intros [?|?]; congruence.
Qed.

Lemma neighborhood_to_onehot_spec (Nv : list Z) w D :
  NoDup Nv → (length Nv ≤ D)%nat →
  ∃ t, neighborhood_to_onehot Nv w D = Some t ∧
       length t = D ∧
       (∀ i, (i < D)%nat →
             t !! i = Some (if decide (Nv !! i = Some w) then 1 else 0)) ∧
       count_eq 1 t = if decide (w ∈ Nv) then 1%nat else 0%nat.
Proof.
  intros Hnd Hlen. unfold neighborhood_to_onehot.
  rewrite length_fmap, decide_True by done.
  eexists. split; [done|]. split_and!.
  - rewrite length_app, length_fmap, length_replicate. lia.
  - intros i Hi. destruct (decide (i < length Nv)%nat) as [Hlt|Hge].
    + rewrite lookup_app_l by (by rewrite length_fmap).
      rewrite list_lookup_fmap.
      destruct (lookup_lt_is_Some_2 Nv i Hlt) as [x Hx]. rewrite Hx. simpl.
      f_equal. repeat case_decide; congruence.
    + rewrite lookup_app_r by (rewrite length_fmap; lia).
      rewrite lookup_replicate_2 by (rewrite length_fmap; lia).
      rewrite decide_False; [done|].
      rewrite lookup_ge_None_2 by lia. done.
  - rewrite count_eq_app, count_eq_replicate, count_eq_indicator by done.
    rewrite (decide_False (P := 0 = 1)) by done. lia.
Qed.

Lemma sorted_elements_NoDup (N : gset Z) : NoDup (sorted (elements N)).
Proof. rewrite sorted_Permutation. apply NoDup_elements. Qed.

Lemma sorted_elements_length (N : gset Z) : length (sorted (elements N)) = size N.
Proof. by rewrite sorted_Permutation. Qed.

Lemma elem_of_sorted_elements (N : gset Z) w : w ∈ sorted (elements N) ↔ w ∈ N.
Proof. by rewrite sorted_Permutation, elem_of_elements. Qed.

Lemma degree_size G v N : G !! v = Some N → (size N ≤ degree G v)%nat.
Proof. intros HN. unfold degree. rewrite HN. lia. Qed.

End Onehot.

(** C5. For an example whose pivot [s[h-1]] is a node of degree at most
    [D], with sorted neighbour list [Nv] and true next node [w = s[h]]: the
    target is produced and has length [D]; every entry at a position from
    [deg(pivot)] on is 0; if [w] is in [Nv], the target holds 1 at the
    position of [w] in [Nv], 0 everywhere else, so exactly one entry is 1;
    if [w] is not in [Nv], the target is the all-zero vector. *)
Theorem onehot_target (G : Graph) (D : nat) (h : Z) (s : list Z)
    (pivot w : Z) (N : gset Z) :
  py_index s (h - 1) = Some pivot →
  py_index s h = Some w →
  G !! pivot = Some N →
  (degree G pivot ≤ D)%nat →
  let Nv := sorted (elements N) in
  ∃ t, target G D h s = Some t ∧
       length t = D ∧
       (∀ j, (length Nv ≤ j < D)%nat → t !! j = Some 0) ∧
       (w ∈ Nv →
          ∃ i, Nv !! i = Some w ∧ (i < length Nv)%nat ∧ t !! i = Some 1 ∧
               (∀ j, (j < D)%nat → j ≠ i → t !! j = Some 0) ∧
               count_eq 1 t = 1%nat) ∧
       (w ∉ Nv → t = replicate D 0).
Proof.
  intros Hp Hw HN Hdeg Nv.
  assert (NoDup Nv) as Hnd by apply sorted_elements_NoDup.
  assert (length Nv ≤ D)%nat as Hlen.
  { unfold Nv. rewrite sorted_elements_length.
    pose proof (degree_size _ _ _ HN). lia. }
  destruct (neighborhood_to_onehot_spec Nv w D Hnd Hlen)
    as (t & Ht & HtD & Hent & Hcnt).
  exists t. split.
  { unfold target, neighborhood. rewrite Hp. simpl. rewrite HN. simpl.
    rewrite Hw. simpl. exact Ht. }
  split; [done|]. split_and!.
  - intros j [Hj1 Hj2]. rewrite Hent by done.
    rewrite decide_False; [done|]. rewrite lookup_ge_None_2 by done. done.
  - intros Hin. apply list_elem_of_lookup_1 in Hin as [i Hi].
    exists i. split; [done|]. split; [by eapply lookup_lt_Some|].
    assert (i < D)%nat by (apply lookup_lt_Some in Hi; lia).
    split_and!.
    + rewrite Hent by done. by rewrite decide_True.
    + intros j Hj Hne. rewrite Hent by done.
      rewrite decide_False; [done|]. intros Hj'.
      apply Hne. by eapply NoDup_lookup.
    + rewrite Hcnt. rewrite decide_True; [done|].
      by eapply list_elem_of_lookup_2.
  - intros Hnin. apply list_eq. intros j.
    destruct (decide (j < D)%nat) as [Hj|Hj].
    + rewrite Hent by done. rewrite lookup_replicate_2 by done.
      rewrite decide_False; [done|]. intros Hj'.
      apply Hnin. by eapply list_elem_of_lookup_2.
    + rewrite !lookup_ge_None_2; [done|rewrite length_replicate; lia|lia].
Qed.

Lemma onehot_target_witness :
  let G : Graph := {[ 0 := {[ 1; 2 ]}; 1 := {[ 0; 2 ]}; 2 := {[ 0; 1 ]} ]} in
  let Nv := sorted (elements ({[ 0; 2 ]} : gset Z)) in
  (py_index [0; 1; 2] (2 - 1) = Some 1 ∧ py_index [0; 1; 2] 2 = Some 2 ∧
   G !! 1 = Some {[ 0; 2 ]} ∧ (degree G 1 ≤ 3)%nat) ∧
  ∃ t, target G 3 2 [0; 1; 2] = Some t ∧
       length t = 3%nat ∧
       (∀ j, (length Nv ≤ j < 3)%nat → t !! j = Some 0) ∧
       (2 ∈ Nv →
          ∃ i, Nv !! i = Some 2 ∧ (i < length Nv)%nat ∧ t !! i = Some 1 ∧
               (∀ j, (j < 3)%nat → j ≠ i → t !! j = Some 0) ∧
               count_eq 1 t = 1%nat) ∧
       (2 ∉ Nv → t = replicate 3 0).
Proof.
  set (G := ({[ 0 := {[ 1; 2 ]}; 1 := {[ 0; 2 ]}; 2 := {[ 0; 1 ]} ]} : Graph)).
  assert (py_index [0; 1; 2] (2 - 1) = Some 1) as H1 by reflexivity.
  assert (py_index [0; 1; 2] 2 = Some 2) as H2 by reflexivity.
  assert (G !! 1 = Some {[ 0; 2 ]}) as H3 by (by vm_compute).
  assert (degree G 1 ≤ 3)%nat as H4 by (vm_compute; lia).
  split; [done|].
  exact (onehot_target G 3 2 [0; 1; 2] 1 2 {[ 0; 2 ]} H1 H2 H3 H4).
Defined.

(** * Properties of the flow encoding *)

Section Flow.

Lemma foldl_insert_lookup (l : list (edge * nat)) (d : gmap edge nat) e k :
  NoDup l.*1 →
  foldl (λ d kv, <[kv.1 := kv.2]> d) d l !! e = Some k ↔
  (e, k) ∈ l ∨ (¬ (e ∈ l.*1) ∧ d !! e = Some k).
Proof.
  revert d. induction l as [|[e' k'] l IH]; intros d Hnd.
  - simpl. split; [intros ?; right; split; [apply not_elem_of_nil|done]|].
    intros [H|[_ H]]; [by apply elem_of_nil in H|done].
  - rewrite fmap_cons in Hnd. apply NoDup_cons in Hnd as [He' Hnd].
    cbn [foldl]. rewrite IH by done. cbn [fst snd].
    rewrite fmap_cons, elem_of_cons, not_elem_of_cons. cbn [fst].
    destruct (decide (e = e')) as [->|Hne].
    + rewrite lookup_insert_eq. split.
      * intros [Hin|[_ [= ->]]]; [|by left; left].
        exfalso. apply He'. apply list_elem_of_fmap. by exists (e', k).
      * intros [[[= ->]|Hin]|[[? _] _]]; [|exfalso|done].
        -- by right.
        -- apply He'. apply list_elem_of_fmap. by exists (e', k).
    + rewrite lookup_insert_ne by done. split.
      * intros [?|[? ?]]; [by left; right|by right].
      * intros [[[= ? ?]|?]|[[_ ?] ?]]; [done|by left|by right].
Qed.

Lemma dict_zip_range_lookup (E : list edge) e k :
  NoDup E → dict_zip_range E !! e = Some k ↔ E !! k = Some e.
Proof.
  intros Hnd. unfold dict_zip_range.
  assert ((zip E (seq 0 (length E))).*1 = E) as Hfst
    by (apply fst_zip; by rewrite length_seq).
  rewrite foldl_insert_lookup by (by rewrite Hfst).
  rewrite lookup_empty, list_elem_of_lookup.
  setoid_rewrite lookup_zip_Some. setoid_rewrite lookup_seq. split.
  - intros [(i & Hi & -> & _)|[_ ?]]; done.
  - intros Hk. left. exists k. split_and!; [done|done|by eapply lookup_lt_Some].
Qed.

Variable E : list edge.
Hypothesis E_NoDup : NoDup E.
Hypothesis E_oriented : ∀ e, e ∈ E → e.1 < e.2.

Lemma flow_step_spec (f : list Z) v0 v1 :
  length f = length E →
  (v0, v1) ∈ E ∨ (v1, v0) ∈ E →
  ∃ f',
    (if decide (v0 < v1) then
       k ← dict_zip_range E !! (v0, v1); vec_add f k 1
     else
       k ← dict_zip_range E !! (v1, v0); vec_add f k (-1)) = Some f' ∧
    length f' = length f ∧
    ∀ k a b, E !! k = Some (a, b) →
      f' !! k =
        (λ x, x + (if decide (v0 = a ∧ v1 = b) then 1 else 0)
                - (if decide (v0 = b ∧ v1 = a) then 1 else 0)) <$> f !! k.
Proof.
  intros Hlen Hstep.
  assert (∀ u w d, (u, w) ∈ E →
            ∃ k0 x, E !! k0 = Some (u, w) ∧ f !! k0 = Some x ∧
                    (k ← dict_zip_range E !! (u, w); vec_add f k d) =
                      Some (<[k0 := x + d]> f)) as Hupd.
  { intros u w d Hin. apply list_elem_of_lookup_1 in Hin as [k0 Hk0].
    destruct (lookup_lt_is_Some_2 f k0) as [x Hx].
    { rewrite Hlen. by eapply lookup_lt_Some. }
    exists k0, x. split_and!; [done..|].
    rewrite (proj2 (dict_zip_range_lookup E (u, w) k0 E_NoDup) Hk0).
    simpl. unfold vec_add. by rewrite Hx. }
  assert (∀ k0 x d k a b u w,
            E !! k0 = Some (u, w) → f !! k0 = Some x → E !! k = Some (a, b) →
            <[k0 := x + d]> f !! k =
              (λ y, y + if decide (u = a ∧ w = b) then d else 0) <$> f !! k) as Hlook.
  { intros k0 x d k a b u w Hk0 Hx Hk. destruct (decide (k0 = k)) as [->|Hne].
    - rewrite list_lookup_insert_eq by (by eapply lookup_lt_Some).
      rewrite Hx. simpl. rewrite decide_True; [done|]. split; congruence.
    - rewrite list_lookup_insert_ne by done.
      destruct (f !! k) as [y|]; [|done]. simpl.
      rewrite decide_False; [f_equal; lia|].
      intros [<- <-]. apply Hne. by eapply NoDup_lookup. }
  case_decide as Hlt.
  - assert ((v0, v1) ∈ E) as Hin.
    { destruct Hstep as [?|Hrev]; [done|]. apply E_oriented in Hrev. simpl in *. lia. }
    destruct (Hupd v0 v1 1 Hin) as (k0 & x & Hk0 & Hx & ->).
    eexists. split; [done|]. split; [by rewrite length_insert|].
    intros k a b Hk. rewrite (Hlook _ _ _ _ _ _ _ _ Hk0 Hx Hk).
    destruct (f !! k) as [y|]; [|done]. simpl. f_equal.
    assert (a < b) as Hab.
    { apply (E_oriented (a, b)). by eapply list_elem_of_lookup_2. }
    rewrite (decide_False (P := v0 = b ∧ v1 = a)) by lia. lia.
  - assert ((v1, v0) ∈ E) as Hin.
    { destruct Hstep as [Hfwd|?]; [|done]. apply E_oriented in Hfwd. simpl in *. lia. }
    destruct (Hupd v1 v0 (-1) Hin) as (k0 & x & Hk0 & Hx & ->).
    eexists. split; [done|]. split; [by rewrite length_insert|].
    intros k a b Hk. rewrite (Hlook _ _ _ _ _ _ _ _ Hk0 Hx Hk).
    destruct (f !! k) as [y|]; [|done]. simpl. f_equal.
    assert (a < b) as Hab.
    { apply (E_oriented (a, b)). by eapply list_elem_of_lookup_2. }
    rewrite (decide_False (P := v0 = a ∧ v1 = b)) by lia.
    repeat case_decide; lia.
Qed.

Lemma path_to_flow_loop_spec (path : list Z) (f : list Z) :
  length f = length E →
  path_on_edges E path →
  ∃ f', path_to_flow_loop (dict_zip_range E) path f = Some f' ∧
        length f' = length f ∧
        ∀ k a b, E !! k = Some (a, b) →
          f' !! k = (λ x, x + traversals a b path - traversals b a path) <$> f !! k.
Proof.
  revert f. induction path as [|v0 path IH]; intros f Hlen Hon.
  { exists f. split_and!; [done..|]. intros k a b _. simpl.
    destruct (f !! k); simpl; [f_equal; lia|done]. }
  destruct path as [|v1 rest].
  { exists f. split_and!; [done..|]. intros k a b _. simpl.
    destruct (f !! k); simpl; [f_equal; lia|done]. }
  destruct Hon as [Hstep Hon].
  destruct (flow_step_spec f v0 v1 Hlen Hstep) as (f1 & Hf1 & Hlen1 & Hent1).
  destruct (IH f1) as (f' & Hf' & Hlen' & Hent'); [congruence|done|].
  exists f'. split_and!.
  - cbn [path_to_flow_loop]. rewrite Hf1. exact Hf'.
  - congruence.
  - intros k a b Hk. rewrite (Hent' _ _ _ Hk), (Hent1 _ _ _ Hk).
    destruct (f !! k) as [x|]; [|done].
    cbn [fmap option_fmap option_map traversals]. f_equal. lia.
Qed.

End Flow.

(** C7. On an edge list without repetitions whose edges run from the
    lower to the higher node, and for a path whose every step runs along
    one of these edges: [path_to_flow] returns a vector with one entry per
    edge, and the entry of edge [(a,b)] is the number of steps from [a] to
    [b] minus the number of steps from [b] to [a], hence 0 for an edge the
    path never runs along.  An entry can exceed 1: walking 0, 1, 2, 0, 1
    round a triangle gives 2 on the edge (0,1). *)
Theorem path_to_flow_signed_counts (E : list edge) (path : list Z) :
  NoDup E →
  (∀ e, e ∈ E → e.1 < e.2) →
  path_on_edges E path →
  (∃ f, path_to_flow path (dict_zip_range E) (length E) = Some f ∧
        length f = length E ∧
        ∀ k a b, E !! k = Some (a, b) →
          f !! k = Some (traversals a b path - traversals b a path) ∧
          (traversals a b path = 0 → traversals b a path = 0 → f !! k = Some 0)) ∧
  path_to_flow [0; 1; 2; 0; 1] (dict_zip_range [(0, 1); (0, 2); (1, 2)]) 3
    = Some [2; -1; 1].
Proof.
  intros Hnd Hor Hon. split; [|by vm_compute].
  destruct (path_to_flow_loop_spec E Hnd Hor path (replicate (length E) 0))
    as (f & Hf & Hlen & Hent); [by rewrite length_replicate|done|].
  exists f. split; [done|]. rewrite length_replicate in Hlen. split; [done|].
  intros k a b Hk.
  assert (f !! k = Some (traversals a b path - traversals b a path)) as Hfk.
  { rewrite (Hent _ _ _ Hk).
    rewrite lookup_replicate_2 by (by eapply lookup_lt_Some). simpl. done. }
  split; [done|]. intros H1 H2. rewrite Hfk, H1, H2. done.
Qed.

Lemma path_to_flow_signed_counts_witness :
  let E : list edge := [(0, 1); (0, 2); (1, 2)] in
  let path := [0; 1; 2; 0; 1; 0] in
  (NoDup E ∧ (∀ e, e ∈ E → e.1 < e.2) ∧ path_on_edges E path) ∧
  (∃ f, path_to_flow path (dict_zip_range E) (length E) = Some f ∧
        length f = length E ∧
        ∀ k a b, E !! k = Some (a, b) →
          f !! k = Some (traversals a b path - traversals b a path) ∧
          (traversals a b path = 0 → traversals b a path = 0 → f !! k = Some 0)) ∧
  path_to_flow [0; 1; 2; 0; 1] (dict_zip_range [(0, 1); (0, 2); (1, 2)]) 3
    = Some [2; -1; 1].
Proof.
  assert (NoDup [(0, 1); (0, 2); (1, 2)]) as H1 by by_decide.
  assert (∀ e : edge, e ∈ [(0, 1); (0, 2); (1, 2)] → e.1 < e.2) as H2.
  { apply Forall_forall. by_decide. }
  assert (path_on_edges [(0, 1); (0, 2); (1, 2)] [0; 1; 2; 0; 1; 0]) as H3.
  { simpl. split_and!; try done; (left; by_decide) || (right; by_decide). }
  split; [done|].
  exact (path_to_flow_signed_counts _ _ H1 H2 H3).
Defined.

(** * Properties of the generated walks *)

Section Walk_shape.

Variable G : Graph.

Lemma is_walk_cons u p :
  is_walk G (u :: p) ↔ (∀ v, head p = Some v → adjacent G u v) ∧ is_walk G p.
Proof.
  destruct p as [|v p]; simpl.
  - split; [intros _; split; [intros ? [=]|done]|done].
  - split.
    + intros [Huv Hp]. split; [by intros ? [= <-]|done].
    + intros [Huv Hp]. split; [by apply Huv|done].
Qed.

Lemma is_walk_app p q :
  is_walk G p → is_walk G q →
  (∀ u v, last p = Some u → head q = Some v → adjacent G u v) →
  is_walk G (p ++ q).
Proof.
  induction p as [|x p IH]; intros Hp Hq Hjoint; [done|].
  change ((x :: p) ++ q) with (x :: (p ++ q)).
  apply is_walk_cons in Hp as [Hx Hp]. apply is_walk_cons. split.
  - intros v Hv. destruct p as [|y p].
    + apply (Hjoint x v); done.
    + apply Hx. simpl in *. done.
  - apply IH; [done..|]. intros u v Hu Hv. apply (Hjoint u v); [|done].
    destruct p; [done|]. done.
Qed.

Lemma is_walk_app_inv_l p q : is_walk G (p ++ q) → is_walk G p.
Proof.
  induction p as [|x p IH]; [done|].
  change ((x :: p) ++ q) with (x :: (p ++ q)).
  rewrite !is_walk_cons. intros [Hx Hpq]. split; [|by apply IH].
  intros v Hv. apply Hx. by destruct p.
Qed.

Lemma is_walk_snoc_inv p t u :
  is_walk G (p ++ [t]) → last p = Some u → adjacent G u t.
Proof.
  induction p as [|x p IH]; [done|].
  change ((x :: p) ++ [t]) with (x :: (p ++ [t])).
  rewrite is_walk_cons. intros [Hx Hp] Hlast.
  destruct p as [|y p].
  - injection Hlast as <-. by apply Hx.
  - apply IH; done.
Qed.

(** [p[:-1]] of a sequence that ends in [t] *)
Lemma py_take_drop_last (p : list Z) t :
  last p = Some t → p = py_take (-1) p ++ [t].
Proof.
  intros Hlast. apply last_Some in Hlast as [p' ->].
  unfold py_take, py_bound. rewrite decide_True by lia.
  rewrite length_app. simpl.
  replace (Z.to_nat (Z.of_nat (length p' + 1) + -1)) with (length p') by lia.
  by rewrite take_app_length.
Qed.

(** Dropping the last node of a segment and appending a walk that
    starts at that node gives a walk. *)
Lemma is_walk_join p q t :
  is_walk G p → last p = Some t →
  is_walk G q → head q = Some t →
  is_walk G (py_take (-1) p ++ q) ∧ head (py_take (-1) p ++ q) = head p.
Proof.
  intros Hp Hlast Hq Hhead.
  pose proof (py_take_drop_last p t Hlast) as Heq.
  set (p' := py_take (-1) p) in *. rewrite Heq in Hp. split.
  - apply is_walk_app; [by eapply is_walk_app_inv_l|done|].
    intros u v Hu Hv. assert (v = t) as -> by congruence.
    by eapply is_walk_snoc_inv.
  - rewrite Heq. destruct p' as [|x p']; simpl; [done|done].
Qed.

End Walk_shape.

Section Walk_generation.

Variable shortest_path : Graph → Z → Z → option (list Z).
Variable G : Graph.

Hypothesis shortest_path_sound : ∀ src tgt p,
  shortest_path G src tgt = Some p →
  head p = Some src ∧ last p = Some tgt ∧ is_walk G p.

Lemma raise_or_Some {A} (o : option A) s a s' :
  raise_or o s = Some (a, s') ↔ o = Some a ∧ s' = s.
Proof.
  unfold raise_or. destruct o; split; try done.
  - by intros [= -> ->].
  - by intros [[= ->] ->].
  - by intros [? _].
Qed.

Lemma random_walk_is_walk R i s path s' :
  random_walk shortest_path G R i s = Some (path, s') → is_walk G path.
Proof.
  unfold random_walk. intros Hrun.
  apply Rand_bind_Some in Hrun as (v_begin & s1 & _ & Hrun).
  apply Rand_bind_Some in Hrun as ([v_1 v_2] & s2 & _ & Hrun).
  apply Rand_bind_Some in Hrun as (v_end & s3 & _ & Hrun).
  apply Rand_bind_Some in Hrun as (p1 & s4 & Hp1 & Hrun).
  apply Rand_bind_Some in Hrun as (p2 & s5 & Hp2 & Hrun).
  apply Rand_bind_Some in Hrun as (p3 & s6 & Hp3 & Hrun).
  injection Hrun as <- _. cbn [fst snd] in *.
  apply raise_or_Some in Hp1 as [Hp1 _].
  apply raise_or_Some in Hp2 as [Hp2 _].
  apply raise_or_Some in Hp3 as [Hp3 _].
  apply shortest_path_sound in Hp1 as (_ & Hl1 & Hw1).
  apply shortest_path_sound in Hp2 as (Hh2 & Hl2 & Hw2).
  apply shortest_path_sound in Hp3 as (Hh3 & _ & Hw3).
  destruct (is_walk_join G p2 p3 v_2 Hw2 Hl2 Hw3 Hh3) as [Hw23 Hh23].
  apply (is_walk_join G p1 _ v_1 Hw1 Hl1 Hw23). congruence.
Qed.

Lemma Rand_mapM_Forall {A B} (f : A → Rand B) (P : B → Prop) l s ys s' :
  (∀ x s y s', f x s = Some (y, s') → P y) →
  mapM f l s = Some (ys, s') →
  length ys = length l ∧ Forall P ys.
Proof.
  intros Hf. revert s ys s'. induction l as [|x l IH]; intros s ys s' Hrun.
  - injection Hrun as <- _. done.
  - rewrite Rand_mapM_cons in Hrun.
    apply Rand_bind_Some in Hrun as (y & s1 & Hy & Hrun).
    apply Rand_bind_Some in Hrun as (k & s2 & Hk & Hrun).
    injection Hrun as <- _. apply IH in Hk as [Hlen Hall].
    split; [simpl; congruence|]. constructor; [by eapply Hf|done].
Qed.

End Walk_generation.

Section Undirected.

Variable G : DiGraph.

Lemma elem_of_undirected_neighbours v w :
  w ∈ undirected_neighbours G v ↔ (v, w) ∈ edges G ∨ (w, v) ∈ edges G.
Proof.
  unfold undirected_neighbours.
  rewrite elem_of_union, !elem_of_map. setoid_rewrite elem_of_filter. split.
  - intros [([a b] & -> & Ha & Hin)|([a b] & -> & Hb & Hin)]; simpl in *; subst; auto.
  - intros [Hin|Hin]; [left; exists (v, w)|right; exists (w, v)]; done.
Qed.

Lemma lookup_to_undirected v N :
  to_undirected G !! v = Some N ↔ v ∈ nodes G ∧ N = undirected_neighbours G v.
Proof.
  unfold to_undirected. rewrite lookup_set_to_map by (by intros ?? _ _ [=]).
  split.
  - by intros (y & Hy & [= -> <-]).
  - intros [Hv ->]. by exists v.
Qed.

(** Two nodes are adjacent in [G.to_undirected()] when an edge of [G] joins them. *)
Lemma adjacent_to_undirected v w :
  adjacent (to_undirected G) v w ↔
  v ∈ nodes G ∧ ((v, w) ∈ edges G ∨ (w, v) ∈ edges G).
Proof.
  unfold adjacent. setoid_rewrite lookup_to_undirected. split.
  - intros (N & [Hv ->] & Hw). by rewrite elem_of_undirected_neighbours in Hw.
  - intros [Hv Hw]. eexists. split; [done|].
    by rewrite elem_of_undirected_neighbours.
Qed.

(** A walk of the undirected graph runs along the edges of [G]. *)
Lemma is_walk_path_on_edges E p :
  (∀ e, e ∈ E ↔ e ∈ edges G) →
  is_walk (to_undirected G) p → path_on_edges E p.
Proof.
  intros HE. induction p as [|u [|v p] IH]; [done..|].
  intros [Huv Hp]. split; [|by apply IH].
  apply adjacent_to_undirected in Huv as [_ Huv]. by rewrite !HE.
Qed.

End Undirected.

(** C8. If the shortest-path capability returns, for a source and a
    target, a walk of the undirected graph that starts at the source and
    ends at the target, then every run of the generator that produces its
    [m] walks produces walks whose consecutive nodes are all adjacent in
    the undirected graph, the two joints of the three segments included. *)
Theorem walks_follow_edges (fl : Q → Q)
    (shortest_path : Graph → Z → Z → option (list Z))
    (G : DiGraph) (points : list (Q * Q)) (valid_idxs : list Z) (m : nat)
    (s : rng) (paths : list (list Z)) (s' : rng) :
  (∀ src tgt p, shortest_path (to_undirected G) src tgt = Some p →
     head p = Some src ∧ last p = Some tgt ∧ is_walk (to_undirected G) p) →
  generate_random_walks fl shortest_path G points valid_idxs m s = Some (paths, s') →
  length paths = m ∧ ∀ p, p ∈ paths → is_walk (to_undirected G) p.
Proof.
  intros Hsp Hrun. unfold generate_random_walks in Hrun.
  apply Rand_bind_Some in Hrun as (R & s1 & _ & Hrun).
  apply (Rand_mapM_Forall _ (is_walk (to_undirected G))) in Hrun as [Hlen Hall].
  - rewrite length_seq in Hlen. split; [done|]. by apply Forall_forall.
  - intros i s0 y s0'. by apply random_walk_is_walk.
Qed.

Lemma direct_path_sound G src tgt p :
  direct_path G src tgt = Some p →
  head p = Some src ∧ last p = Some tgt ∧ is_walk G p.
Proof.
  unfold direct_path. repeat case_decide; intros [= <-]; subst; simpl; auto.
Qed.

Lemma walks_follow_edges_witness :
  let paths := [[0; 1; 4; 7]; [0; 2; 5; 7]; [0; 3; 6; 7]] in
  let G_undir := to_undirected corridor_graph in
  ((∀ src tgt p, direct_path G_undir src tgt = Some p →
      head p = Some src ∧ last p = Some tgt ∧ is_walk G_undir p) ∧
   generate_random_walks (λ q, q) direct_path corridor_graph corridor_points
       (seqZ 0 8) 3 (const_rng 0)
     = Some (paths, const_rng 0)) ∧
  length paths = 3%nat ∧ ∀ p, p ∈ paths → is_walk G_undir p.
Proof.
  assert (generate_random_walks (λ q, q) direct_path corridor_graph corridor_points
            (seqZ 0 8) 3 (const_rng 0)
            = Some ([[0; 1; 4; 7]; [0; 2; 5; 7]; [0; 3; 6; 7]], const_rng 0)) as Hrun
    by (vm_compute; reflexivity).
  split; [split; [apply direct_path_sound|exact Hrun]|].
  exact (walks_follow_edges (λ q, q) direct_path corridor_graph corridor_points
           (seqZ 0 8) 3 (const_rng 0) _ _
           (direct_path_sound (to_undirected corridor_graph)) Hrun).
Defined.

(** * Properties of the multi-hop neighbourhood *)

Section Multi_hop.

Variable G : Graph.

Lemma walk_of_length_0 v w : walk_of_length G 0 v w ↔ v = w.
Proof.
  unfold walk_of_length. split.
  - intros (p & Hlen & Hh & Hl & _).
    destruct p as [|x [|y p]]; [done| |done]. simpl in Hh, Hl. congruence.
  - intros <-. exists [v]. done.
Qed.

Lemma walk_of_length_S n v w :
  walk_of_length G (S n) v w ↔ ∃ u, adjacent G v u ∧ walk_of_length G n u w.
Proof.
  unfold walk_of_length. split.
  - intros (p & Hlen & Hh & Hl & Hw).
    destruct p as [|x [|y p]]; [done..|].
    injection Hh as ->. injection Hlen as Hlen.
    rewrite last_cons_cons in Hl. destruct Hw as [Hxy Hw].
    exists y. split; [done|]. exists (y :: p).
    split_and!; [simpl; congruence|done..].
  - intros (u & Hadj & p & Hlen & Hh & Hl & Hw).
    destruct p as [|x p]; [done|]. injection Hh as ->.
    exists (v :: u :: p). split_and!.
    + cbn [length] in *. by rewrite Hlen.
    + done.
    + by rewrite last_cons_cons.
    + split; done.
Qed.

(** The loop [for nbr in G[v]: Nv.update(...)] collects the union of what the calls return. *)
Lemma foldl_update (g : Z → outcome (gset Z)) (P : Z → Z → Prop) (l : list Z) acc :
  (∀ x, x ∈ l → ∃ Nx, g x = Returns Nx ∧ ∀ w, w ∈ Nx ↔ P x w) →
  ∃ Nr,
    foldl (λ acc nbr,
             match acc with
             | Returns Nv =>
                 match g nbr with
                 | Returns Nh => Returns (Nv ∪ Nh)
                 | err => err
                 end
             | err => err
             end) (Returns acc) l = Returns Nr ∧
    ∀ w, w ∈ Nr ↔ w ∈ acc ∨ ∃ x, x ∈ l ∧ P x w.
Proof.
  revert acc. induction l as [|x l IH]; intros acc Hg.
  - exists acc. split; [done|]. intros w. split; [by left|].
    intros [?|(x & Hx & _)]; [done|by apply elem_of_nil in Hx].
  - destruct (Hg x) as (Nx & Hgx & HNx); [left|].
    destruct (IH (acc ∪ Nx)) as (Nr & Hfold & HNr).
    { intros y Hy. apply Hg. by right. }
    exists Nr. split; [cbn [foldl]; by rewrite Hgx|].
    intros w. rewrite HNr, elem_of_union, HNx. split.
    + intros [[?|?]|(y & Hy & ?)]; [by left| |].
      * right. exists x. split; [left|done].
      * right. exists y. split; [by right|done].
    + intros [?|(y & Hy & ?)]; [by left; left|].
      apply elem_of_cons in Hy as [->|Hy]; [by left; right|].
      right. eauto.
Qed.

Hypothesis G_closed : graph_closed G.

Lemma multi_hop_neighborhood_spec (n depth : nat) (v : Z) :
  is_Some (G !! v) → (S n ≤ depth)%nat →
  ∃ Nh, multi_hop_neighborhood depth G v (Z.of_nat (S n)) = Returns Nh ∧
        ∀ w, w ∈ Nh ↔ walk_of_length G (S n) v w.
Proof.
  revert depth v. induction n as [|n IH]; intros depth v [N HN] Hd;
    (destruct depth as [|depth]; [lia|]); cbn [multi_hop_neighborhood]; rewrite HN.
  - rewrite decide_True by done. exists N. split; [done|].
    intros w. rewrite walk_of_length_S. setoid_rewrite walk_of_length_0.
    unfold adjacent. split.
    + intros Hw. exists w. eauto.
    + intros (u & (N' & HN' & Hu) & ->). by simplify_eq.
  - rewrite decide_False by lia.
    replace (Z.of_nat (S (S n)) - 1) with (Z.of_nat (S n)) by lia.
    destruct (foldl_update (λ nbr, multi_hop_neighborhood depth G nbr (Z.of_nat (S n)))
                (λ u w, walk_of_length G (S n) u w) (elements N) ∅)
      as (Nr & Hfold & HNr).
    { intros u Hu. apply elem_of_elements in Hu.
      apply IH; [by eapply G_closed|lia]. }
    exists Nr. split; [exact Hfold|].
    intros w. rewrite HNr, (walk_of_length_S (S n)). split.
    + intros [Hw|(u & Hu & Hw)]; [by apply not_elem_of_empty in Hw|].
      exists u. split; [|done]. exists N. split; [done|].
      by apply elem_of_elements.
    + intros (u & (N' & HN' & Hu) & Hw). right. exists u.
      split; [|done]. apply elem_of_elements. by simplify_eq.
Qed.

End Multi_hop.

(** C10. In a graph whose neighbours are all nodes, for a node [v], a hop
    count [h ≥ 1] and a call depth of at least [h], the function returns
    exactly the set of the nodes reached from [v] by a walk of exactly [h]
    edges.  That is not the set of the nodes within distance [h]: on the
    path graph 0 - 1 - 2, two hops from node 0 give [{0, 2}], which holds
    node 0 itself and leaves out its neighbour 1. *)
Theorem multi_hop_exact_walks (G : Graph) (v h : Z) (depth : nat) :
  graph_closed G →
  is_Some (G !! v) →
  1 ≤ h →
  (Z.to_nat h ≤ depth)%nat →
  (∃ Nh, multi_hop_neighborhood depth G v h = Returns Nh ∧
         ∀ w, w ∈ Nh ↔ walk_of_length G (Z.to_nat h) v w) ∧
  (multi_hop_neighborhood 2 path_graph3 0 2 = Returns {[ 0; 2 ]} ∧
   adjacent path_graph3 0 1).
Proof.
  intros Hcl Hv Hh Hd. split.
  - destruct (Z.to_nat h) as [|n] eqn:Hn; [lia|].
    replace h with (Z.of_nat (S n)) by lia.
    by apply multi_hop_neighborhood_spec.
  - split; [by vm_compute|by_decide].
Qed.

Lemma graph_closed_alt (G : Graph) :
  map_Forall (λ _ N, set_Forall (λ w, is_Some (G !! w)) N) G → graph_closed G.
Proof. intros H v N w Hv Hw. exact (H v N Hv w Hw). Qed.

Lemma multi_hop_exact_walks_witness :
  (graph_closed path_graph3 ∧ is_Some (path_graph3 !! 0) ∧ 1 ≤ 2 ∧
   (Z.to_nat 2 ≤ 5)%nat) ∧
  (∃ Nh, multi_hop_neighborhood 5 path_graph3 0 2 = Returns Nh ∧
         ∀ w, w ∈ Nh ↔ walk_of_length path_graph3 (Z.to_nat 2) 0 w) ∧
  (multi_hop_neighborhood 2 path_graph3 0 2 = Returns {[ 0; 2 ]} ∧
   adjacent path_graph3 0 1).
Proof.
  assert (graph_closed path_graph3) as H1 by (apply graph_closed_alt; by_decide).
  assert (is_Some (path_graph3 !! 0)) as H2 by by_decide.
  assert (1 ≤ 2) as H3 by lia.
  assert (Z.to_nat 2 ≤ 5)%nat as H4 by (simpl; lia).
  split; [done|].
  exact (multi_hop_exact_walks path_graph3 0 2 5 H1 H2 H3 H4).
Defined.

(** * Properties of the region partition *)

Section Region_membership.

Variable fl : Q → Q.
Variable points : list (Q * Q).

Lemma mask_select_cons {A} (b : bool) mask (x : A) xs :
  mask_select (b :: mask) (x :: xs) =
  if b then x :: mask_select mask xs else mask_select mask xs.
Proof.
  unfold mask_select. cbn [zip zip_with]. rewrite filter_cons. cbn [snd].
  by destruct b.
Qed.

Lemma mask_select_subseteq {A} mask (xs : list A) x :
  x ∈ mask_select mask xs → x ∈ xs.
Proof.
  revert mask. induction xs as [|y xs IH]; intros [|b mask] Hx;
    try (by apply elem_of_nil in Hx).
  rewrite mask_select_cons in Hx. destruct b.
  - apply elem_of_cons in Hx as [->|Hx]; [left|right; by eapply IH].
  - right. by eapply IH.
Qed.

Lemma elem_of_mask_select (g : Q * Q → bool) idxs rows i :
  take_rows points idxs = Some rows →
  i ∈ mask_select (g <$> rows) idxs ↔
  i ∈ idxs ∧ ∃ p, py_index points i = Some p ∧ g p = true.
Proof.
  unfold take_rows. rewrite mapM_Some. intros Hrows.
  induction Hrows as [|x p idxs rows Hx Hrows IH].
  - split; [by intros ?%elem_of_nil|by intros [?%elem_of_nil _]].
  - rewrite fmap_cons, mask_select_cons. destruct (g p) eqn:Hg.
    + rewrite !elem_of_cons, IH. split.
      * intros [->|[Hi Hp]]; [|by split; [right|]].
        split; [by left|]. eauto.
      * intros [[->|Hi] Hp]; [by left|right; by split].
    + rewrite IH, elem_of_cons. split.
      * intros [Hi Hp]. split; [by right|done].
      * intros [[->|Hi] (q & Hq & Hgq)]; [congruence|]. split; [done|]. eauto.
Qed.

Lemma take_rows_is_Some idxs :
  Forall (λ i, is_Some (py_index points i)) idxs → is_Some (take_rows points idxs).
Proof. intros H. unfold take_rows. by apply mapM_is_Some. Qed.

Lemma corridors_spec band :
  Forall (λ i, is_Some (py_index points i)) band →
  ∃ C0 C1 C2,
    corridors fl points band = Some (C0, C1, C2) ∧
    ∀ i,
      (i ∈ C0 ↔ i ∈ band ∧ ∃ p, py_index points i = Some p ∧
                 (coord_diff fl p < 1 # 2)%Q ∧ (- (1 # 2) < coord_diff fl p)%Q) ∧
      (i ∈ C1 ↔ i ∈ band ∧ ∃ p, py_index points i = Some p ∧
                 (1 # 2 < coord_diff fl p)%Q) ∧
      (i ∈ C2 ↔ i ∈ band ∧ ∃ p, py_index points i = Some p ∧
                 (coord_diff fl p < - (1 # 2))%Q).
Proof.
  intros Hband. destruct (take_rows_is_Some band Hband) as [rows Hrows].
  unfold corridors. rewrite Hrows. cbn [mbind option_bind].
  eexists _, _, _. split; [done|]. intros i.
  rewrite <- !list_fmap_compose.
  rewrite !(elem_of_mask_select _ _ _ _ Hrows). unfold compose.
  setoid_rewrite andb_true_iff. setoid_rewrite bool_decide_eq_true.
  done.
Qed.

Lemma partition_nodes_spec valid_idxs :
  Forall (λ i, is_Some (py_index points i)) valid_idxs →
  ∃ R, partition_nodes fl points valid_idxs = Some R ∧
    ∀ i (j : nat) Rj, region_list R !! j = Some Rj →
      i ∈ Rj ↔
      i ∈ valid_idxs ∧ ∃ p, py_index points i = Some p ∧
        ∃ C, region_conditions (coord_sum fl p) (coord_diff fl p) !! j = Some C ∧ C.
Proof.
  intros Hvalid. destruct (take_rows_is_Some valid_idxs Hvalid) as [pv Hpv].
  unfold partition_nodes. rewrite Hpv. cbn [mbind option_bind].
  set (A012 := mask_select
                 ((λ v : Q, bool_decide (1 # 4 < v)%Q && bool_decide (v < 1)%Q) <$>
                  (coord_sum fl <$> pv)) valid_idxs).
  set (B012 := mask_select
                 ((λ v : Q, bool_decide (v < 7 # 4)%Q && bool_decide (1 < v)%Q) <$>
                  (coord_sum fl <$> pv)) valid_idxs).
  assert (∀ m, Forall (λ i, is_Some (py_index points i)) (mask_select m valid_idxs)) as Hsub.
  { intros m. apply Forall_forall. intros i Hi.
    apply (proj1 (Forall_forall _ _) Hvalid). by eapply mask_select_subseteq. }
  destruct (corridors_spec A012 (Hsub _)) as (a0 & a1 & a2 & -> & HA).
  destruct (corridors_spec B012 (Hsub _)) as (b0 & b1 & b2 & -> & HB).
  cbn [mbind option_bind]. eexists. split; [done|].
  assert (∀ i, i ∈ A012 ↔ i ∈ valid_idxs ∧ ∃ p, py_index points i = Some p ∧
             (1 # 4 < coord_sum fl p)%Q ∧ (coord_sum fl p < 1)%Q) as HA012.
  { intros i. unfold A012. rewrite <- list_fmap_compose.
    rewrite (elem_of_mask_select _ _ _ _ Hpv). unfold compose.
    setoid_rewrite andb_true_iff. setoid_rewrite bool_decide_eq_true. done. }
  assert (∀ i, i ∈ B012 ↔ i ∈ valid_idxs ∧ ∃ p, py_index points i = Some p ∧
             (coord_sum fl p < 7 # 4)%Q ∧ (1 < coord_sum fl p)%Q) as HB012.
  { intros i. unfold B012. rewrite <- list_fmap_compose.
    rewrite (elem_of_mask_select _ _ _ _ Hpv). unfold compose.
    setoid_rewrite andb_true_iff. setoid_rewrite bool_decide_eq_true. done. }
  intros i j Rj Hj.
  destruct (HA i) as (HA0 & HA1 & HA2). destruct (HB i) as (HB0 & HB1 & HB2).
  unfold region_list in Hj. cbn [BEGIN END A0 A1 A2 B0 B1_ B2_] in Hj.
  destruct j as [|[|[|[|[|[|[|[|j]]]]]]]]; [..|done];
    injection Hj as <-; cbn [region_conditions lookup list_lookup].
  - rewrite <- list_fmap_compose, (elem_of_mask_select _ _ _ _ Hpv). unfold compose.
    setoid_rewrite bool_decide_eq_true. naive_solver.
  - rewrite HA0, HA012. naive_solver.
  - rewrite HA1, HA012. naive_solver.
  - rewrite HA2, HA012. naive_solver.
  - rewrite HB0, HB012. naive_solver.
  - rewrite HB1, HB012. naive_solver.
  - rewrite HB2, HB012. naive_solver.
  - rewrite <- list_fmap_compose, (elem_of_mask_select _ _ _ _ Hpv). unfold compose.
    setoid_rewrite bool_decide_eq_true. naive_solver.
Qed.

End Region_membership.

Section Region_conditions.

Lemma region_conditions_exclusive s d (j k : nat) Cj Ck :
  region_conditions s d !! j = Some Cj →
  region_conditions s d !! k = Some Ck →
  Cj → Ck → j = k.
Proof.
  intros Hj Hk.
  destruct j as [|[|[|[|[|[|[|[|j]]]]]]]]; [..|done]; injection Hj as <-;
    (destruct k as [|[|[|[|[|[|[|[|k]]]]]]]]; [..|done]; injection Hk as <-);
    intros Hcj Hck; try reflexivity; exfalso; destruct_and?; lra.
Qed.

Variable fl : Q → Q.
Hypothesis fl_rounding : rounding fl.

Lemma fl_exact a t : t ∈ exact_values → (a == t)%Q → (fl a == t)%Q.
Proof.
  intros Ht Hat. destruct fl_rounding as [Hmono Hex].
  pose proof (proj1 (Forall_forall _ _) Hex t Ht) as Hfix.
  apply Qle_antisym.
  - rewrite <- Hfix. apply Hmono. lra.
  - rewrite <- Hfix. apply Hmono. lra.
Qed.

Lemma fl_lower a t : t ∈ exact_values → (t <= a)%Q → (t <= fl a)%Q.
Proof.
  intros Ht Hat. destruct fl_rounding as [Hmono Hex].
  pose proof (proj1 (Forall_forall _ _) Hex t Ht) as Hfix.
  rewrite <- Hfix. by apply Hmono.
Qed.

Lemma fl_upper a t : t ∈ exact_values → (a <= t)%Q → (fl a <= t)%Q.
Proof.
  intros Ht Hat. destruct fl_rounding as [Hmono Hex].
  pose proof (proj1 (Forall_forall _ _) Hex t Ht) as Hfix.
  rewrite <- Hfix. by apply Hmono.
Qed.

Lemma boundary_in_no_region p (j : nat) C :
  in_unit_square p → on_boundary p →
  region_conditions (coord_sum fl p) (coord_diff fl p) !! j = Some C → ¬ C.
Proof.
  intros [[Hx0 Hx1] [Hy0 Hy1]] Hb Hj. unfold coord_sum, coord_diff in Hj.
  assert (∀ t, t ∈ exact_values → (p.1 + p.2 == t)%Q → (fl (p.1 + p.2) == t)%Q)
    as Hs by (intros; by apply fl_exact).
  assert (∀ t, t ∈ exact_values → (p.2 - p.1 == t)%Q → (fl (p.2 - p.1) == t)%Q)
    as Hd by (intros; by apply fl_exact).
  assert (((p.2 - p.1 == 1 # 2)%Q ∨ (p.2 - p.1 == - (1 # 2))%Q) →
          (1 # 2 <= fl (p.1 + p.2))%Q ∧ (fl (p.1 + p.2) <= 3 # 2)%Q) as Hband.
  { intros Hdiff. split.
    - apply fl_lower; [unfold exact_values; set_solver|]. destruct Hdiff; lra.
    - apply fl_upper; [unfold exact_values; set_solver|]. destruct Hdiff; lra. }
  set (s := fl (p.1 + p.2)) in *. set (d := fl (p.2 - p.1)) in *.
  assert ((s == 1 # 4)%Q ∨ (s == 1)%Q ∨ (s == 7 # 4)%Q ∨
          (((d == 1 # 2)%Q ∨ (d == - (1 # 2))%Q) ∧
           (1 # 2 <= s)%Q ∧ (s <= 3 # 2)%Q)) as Hcases.
  { destruct Hb as [H|[H|[H|[H|H]]]].
    - left. apply Hs; [unfold exact_values; set_solver|done].
    - right; left. apply Hs; [unfold exact_values; set_solver|done].
    - right; right; left. apply Hs; [unfold exact_values; set_solver|done].
    - right; right; right. split; [left|apply Hband; by left].
      apply Hd; [unfold exact_values; set_solver|done].
    - right; right; right. split; [right|apply Hband; by right].
      apply Hd; [unfold exact_values; set_solver|done]. }
  clearbody s d. clear Hs Hd Hband Hb.
  destruct j as [|[|[|[|[|[|[|[|j]]]]]]]]; [..|done]; injection Hj as <-;
    intros HC; destruct_and?;
    destruct Hcases as [Hc|[Hc|[Hc|[[Hc|Hc] [? ?]]]]]; lra.
Qed.

End Region_conditions.

(** C6. When every valid index addresses a point, the eight regions are
    produced, and for every valid node: the node is in at most one of
    BEGIN, A0, A1, A2, B0, B1, B2, END; and, the rounding of sums and
    differences being monotone and exact on the thresholds, a node whose
    point of the unit square lies exactly on a threshold ([x+y] equal to
    1/4, 1 or 7/4, or [y-x] equal to 1/2 or -1/2) is in none of them. *)
Theorem regions_mutually_exclusive (fl : Q → Q) (points : list (Q * Q))
    (valid_idxs : list Z) :
  Forall (λ i, is_Some (py_index points i)) valid_idxs →
  ∃ R, partition_nodes fl points valid_idxs = Some R ∧
    ∀ i p, i ∈ valid_idxs → py_index points i = Some p →
      (∀ (j k : nat) Rj Rk,
         region_list R !! j = Some Rj → region_list R !! k = Some Rk →
         i ∈ Rj → i ∈ Rk → j = k) ∧
      (rounding fl → in_unit_square p → on_boundary p →
       ∀ Rj, Rj ∈ region_list R → i ∉ Rj).
Proof.
  intros Hvalid.
  destruct (partition_nodes_spec fl points valid_idxs Hvalid) as (R & HR & Hmem).
  exists R. split; [done|]. intros i p Hi Hp. split.
  - intros j k Rj Rk Hj Hk Hij Hik.
    apply (Hmem i j Rj Hj) in Hij as (_ & pj & Hpj & Cj & HCj & Hcj).
    apply (Hmem i k Rk Hk) in Hik as (_ & pk & Hpk & Ck & HCk & Hck).
    assert (pj = p) as -> by congruence. assert (pk = p) as -> by congruence.
    by eapply region_conditions_exclusive.
  - intros Hfl Hsq Hb Rj HRj Hin.
    apply list_elem_of_lookup_1 in HRj as [j Hj].
    apply (Hmem i j Rj Hj) in Hin as (_ & pj & Hpj & Cj & HCj & Hcj).
    assert (pj = p) as -> by congruence.
    by eapply (boundary_in_no_region fl Hfl p j Cj).
Qed.

Example sample_regions :
  partition_nodes (λ q, q) sample_points [0; 1; 2; 3; 4; 5] =
  Some {| BEGIN := [0]; END := [5]; A0 := [1]; A1 := [2]; A2 := [3];
          B0 := []; B1_ := []; B2_ := [] |}.
Proof. by vm_compute. Qed.

Lemma regions_mutually_exclusive_witness :
  Forall (λ i, is_Some (py_index sample_points i)) [0; 1; 2; 3; 4; 5] ∧
  ∃ R, partition_nodes (λ q, q) sample_points [0; 1; 2; 3; 4; 5] = Some R ∧
    ∀ i p, i ∈ [0; 1; 2; 3; 4; 5] → py_index sample_points i = Some p →
      (∀ (j k : nat) Rj Rk,
         region_list R !! j = Some Rj → region_list R !! k = Some Rk →
         i ∈ Rj → i ∈ Rk → j = k) ∧
      (rounding (λ q, q) → in_unit_square p → on_boundary p →
       ∀ Rj, Rj ∈ region_list R → i ∉ Rj).
Proof.
  assert (Forall (λ i, is_Some (py_index sample_points i)) [0; 1; 2; 3; 4; 5]) as H
    by by_decide.
  split; [exact H|].
  exact (regions_mutually_exclusive (λ q, q) sample_points [0; 1; 2; 3; 4; 5] H).
Defined.

(** * Further properties of the complex *)

Section Complex_structure.

Variables (n : Z) (simplices : list face) (valid_idxs : list Z).
Let sc := random_SC_graph n simplices valid_idxs.

Lemma elem_of_sc_faces f :
  f ∈ sc_faces sc ↔ f ∈ simplices ∧ in1d_all (face_nodes f) valid_idxs.
Proof.
  unfold sc, random_SC_graph. cbn [sc_faces].
  rewrite list_elem_of_filter. tauto.
Qed.

Lemma sc_G_edges e : e ∈ edges (sc_G sc) ↔ e ∈ sc_E sc.
Proof.
  unfold sc, random_SC_graph. cbn [sc_G sc_E].
  by rewrite sorted_edges_Permutation, elem_of_elements.
Qed.

Lemma sc_G_nodes x : x ∈ nodes (sc_G sc) ↔ x ∈ sc_V sc.
Proof.
  unfold sc, random_SC_graph. cbn [sc_G sc_V].
  by rewrite sorted_Permutation, elem_of_elements.
Qed.

End Complex_structure.

Global Instance edge_le_total : Total edge_le.
Proof. intros [a b] [c d]. unfold edge_le. simpl. lia. Qed.

Global Instance edge_le_trans : Transitive edge_le.
Proof. intros [a b] [c d] [e f]. unfold edge_le. simpl. lia. Qed.

Lemma StronglySorted_strict {A} (R S : relation A) (l : list A) :
  (∀ x y, R x y → x ≠ y → S x y) →
  StronglySorted R l → NoDup l → StronglySorted S l.
Proof.
  intros HRS Hs. induction Hs as [|x l Hs IH Hall]; intros Hnd; [constructor|].
  apply NoDup_cons in Hnd as [Hx Hnd]. constructor; [by apply IH|].
  apply Forall_forall. intros y Hy.
  apply HRS; [by apply (proj1 (Forall_forall _ _) Hall)|].
  intros ->. done.
Qed.

(** X1. The edge list holds exactly the sides of the triangles whose
    three corners are all valid; no other pair of nodes is an edge. *)
Theorem edges_are_sides_of_valid_faces (n : Z) (simplices : list face)
    (valid_idxs : list Z) (e : edge) :
  e ∈ sc_E (random_SC_graph n simplices valid_idxs) ↔
  ∃ f, f ∈ simplices ∧ in1d_all (face_nodes f) valid_idxs ∧ e ∈ sides f.
Proof.
  rewrite elem_of_sc_E. setoid_rewrite elem_of_sc_faces. split.
  - intros (f & [? ?] & ?). eauto.
  - intros (f & ? & ? & ?). eauto.
Qed.

(** X2. The node list and the edge list are strictly increasing (the
    edges in lexicographic order), so neither repeats an element. *)
Theorem node_and_edge_lists_strictly_sorted (n : Z) (simplices : list face)
    (valid_idxs : list Z) :
  let sc := random_SC_graph n simplices valid_idxs in
  StronglySorted Z.lt (sc_V sc) ∧ StronglySorted edge_lt (sc_E sc).
Proof.
  intros sc. split.
  - apply (StronglySorted_strict Z.le); [intros; lia| |apply NoDup_sc_V].
    apply (StronglySorted_merge_sort Z.le).
  - apply (StronglySorted_strict edge_le); [| |apply NoDup_sc_E].
    + intros [a b] [c d]. unfold edge_le, edge_lt. simpl.
      intros H Hne. destruct (decide (b = d)); [|lia].
      destruct (decide (a = c)); [congruence|lia].
    + apply (StronglySorted_merge_sort edge_le).
Qed.

(** X3. The edge index inverts the edge list: [E_lookup[e] = k] exactly
    when [E[k] = e]; so it is defined on the edges only and every index it
    returns is below [len(E)]. *)
Theorem E_lookup_inverts_E (n : Z) (simplices : list face)
    (valid_idxs : list Z) (e : edge) (k : nat) :
  let sc := random_SC_graph n simplices valid_idxs in
  (sc_E_lookup sc !! e = Some k ↔ sc_E sc !! k = Some e) ∧
  (sc_E_lookup sc !! e = Some k → (k < length (sc_E sc))%nat) ∧
  (sc_E_lookup sc !! e = None ↔ e ∉ sc_E sc).
Proof.
  intros sc.
  assert (∀ e k, sc_E_lookup sc !! e = Some k ↔ sc_E sc !! k = Some e) as Hinv.
  { intros e' k'. apply dict_zip_range_lookup, NoDup_sc_E. }
  split; [apply Hinv|]. split.
  - intros Hk. apply Hinv in Hk. by eapply lookup_lt_Some.
  - rewrite list_elem_of_lookup. split.
    + intros Hnone [k' Hk']. apply Hinv in Hk'. congruence.
    + intros Hnot. destruct (sc_E_lookup sc !! e) as [k'|] eqn:Hk'; [|done].
      exfalso. apply Hnot. exists k'. by apply Hinv.
Qed.

(** X4. A node that is not valid stays in the node list when it is one of
    the [n] nodes, but no edge has it as an endpoint: it is isolated in the
    undirected graph. *)
Theorem invalid_nodes_are_isolated (n : Z) (simplices : list face)
    (valid_idxs : list Z) (x : Z) :
  x ∉ valid_idxs →
  let sc := random_SC_graph n simplices valid_idxs in
  (∀ e, e ∈ sc_E sc → e.1 ≠ x ∧ e.2 ≠ x) ∧
  (0 ≤ x < n → x ∈ sc_V sc ∧ to_undirected (sc_G sc) !! x = Some ∅).
Proof.
  intros Hx sc.
  assert (∀ e, e ∈ sc_E sc → e.1 ≠ x ∧ e.2 ≠ x) as Hiso.
  { intros e He. apply edges_are_sides_of_valid_faces in He as (f & _ & Hval & He).
    apply sides_elem_of_face in He as [H1 H2].
    unfold in1d_all in Hval. rewrite Forall_forall in Hval.
    split; intros <-; apply Hx; by apply Hval. }
  split; [done|]. intros Hr.
  assert (x ∈ sc_V sc) as HV by (apply elem_of_sc_V; by left).
  split; [done|]. apply lookup_to_undirected. split; [by apply sc_G_nodes|].
  symmetry. apply set_eq. intros w.
  rewrite elem_of_undirected_neighbours. unfold sc in *.
  rewrite !sc_G_edges. split.
  - intros [He|He]; apply Hiso in He as [? ?]; done.
  - by intros ?%not_elem_of_empty.
Qed.

Lemma invalid_nodes_are_isolated_witness :
  let sc := random_SC_graph 5 [Face 2 0 1; Face 1 3 2; Face 2 3 4] [0; 1; 2; 3] in
  ¬ (4 ∈ [0; 1; 2; 3]) ∧
  (∀ e, e ∈ sc_E sc → e.1 ≠ 4 ∧ e.2 ≠ 4) ∧
  (0 ≤ 4 < 5 → 4 ∈ sc_V sc ∧ to_undirected (sc_G sc) !! 4 = Some ∅).
Proof.
  assert (4 ∉ [0; 1; 2; 3]) as H by by_decide.
  split; [exact H|].
  exact (invalid_nodes_are_isolated 5 [Face 2 0 1; Face 1 3 2; Face 2 3 4]
           [0; 1; 2; 3] 4 H).
Defined.

Section Matrix_products.

Lemma dot_fmap {A} (g h : A → Z) (l : list A) :
  dot (g <$> l) (h <$> l) = vsum ((λ x, g x * h x) <$> l).
Proof.
  unfold dot, vsum. induction l as [|x l IH]; [done|].
  rewrite !fmap_cons. cbn [zip_with foldr]. by rewrite IH.
Qed.

(** Sum of a vector that vanishes away from one place of a
    duplicate-free list. *)
Lemma vsum_pick {A} `{EqDecision A} (g : A → Z) (l : list A) a :
  NoDup l → a ∈ l →
  vsum ((λ x, if decide (x = a) then g x else 0) <$> l) = g a.
Proof.
  induction l as [|y l IH]; intros Hnd Ha; [by apply elem_of_nil in Ha|].
  apply NoDup_cons in Hnd as [Hy Hnd].
  rewrite fmap_cons. unfold vsum in *. cbn [foldr].
  destruct (decide (y = a)) as [->|Hne].
  - fold (vsum ((λ x, if decide (x = a) then g x else 0) <$> l)).
    rewrite vsum_fmap_zero; [lia|].
    intros x Hx. case_decide; [congruence|done].
  - apply elem_of_cons in Ha as [->|Ha]; [done|]. rewrite IH by done. lia.
Qed.

Lemma vsum_fmap_ext {A} (g h : A → Z) (l : list A) :
  (∀ x, x ∈ l → g x = h x) → vsum (g <$> l) = vsum (h <$> l).
Proof.
  intros Hgh. f_equal. apply list_fmap_ext.
  intros i x Hi. apply Hgh. by eapply list_elem_of_lookup_2.
Qed.

Lemma row_fmap {A B} (g : A → B → Z) (rows : list A) (cols : list B) i x :
  rows !! i = Some x →
  row ((λ x, g x <$> cols) <$> rows) i = g x <$> cols.
Proof. intros Hi. unfold row. by rewrite list_lookup_fmap, Hi. Qed.

End Matrix_products.

(** X5. The complex and its matrices are always produced: networkx never
    meets an edge whose endpoint is missing from the node list.  [B1] has
    one row per node and one column per edge, [B2] one row per edge and
    one column per retained face. *)
Theorem synthesize_SC_graph_shapes (n : Z) (simplices : list face)
    (valid_idxs : list Z) :
  let sc := random_SC_graph n simplices valid_idxs in
  ∃ B1 B2,
    synthesize_SC_graph n simplices valid_idxs = Some (sc, B1, B2) ∧
    length B1 = length (sc_V sc) ∧
    Forall (λ r, length r = length (sc_E sc)) B1 ∧
    length B2 = length (sc_E sc) ∧
    Forall (λ r, length r = length (sc_faces sc)) B2.
Proof.
  intros sc. unfold synthesize_SC_graph. fold sc. unfold sc.
  rewrite incidience_matrices_sc. cbn [mbind option_bind]. fold sc.
  eexists _, _. split; [done|]. unfold B2_matrix.
  rewrite !length_fmap. split_and!; [done| |done|].
  - apply Forall_fmap, Forall_forall. intros x _. simpl. by rewrite length_fmap.
  - apply Forall_fmap, Forall_forall. intros x _. simpl. by rewrite length_fmap.
Qed.

(** X6. The boundary of a boundary vanishes: on a complex whose retained
    faces are proper triangles, the product of every row of [B1] with
    every column of [B2] is 0, that is, [B1 @ B2 = 0]. *)
Theorem boundary_of_boundary_is_zero (n : Z) (simplices : list face)
    (valid_idxs : list Z) :
  let sc := random_SC_graph n simplices valid_idxs in
  Forall nondegenerate (sc_faces sc) →
  ∃ B1 B2,
    incidience_matrices (sc_V sc) (sc_E sc) (sc_faces sc) = Some (B1, B2) ∧
    ∀ i j : nat, (i < length (sc_V sc))%nat → (j < length (sc_faces sc))%nat →
      dot (row B1 i) (column B2 j) = 0.
Proof.
  intros sc Hnd. eexists _, _. split; [apply incidience_matrices_sc|].
  fold sc. intros i j Hi Hj.
  destruct (lookup_lt_is_Some_2 _ _ Hi) as [x Hx].
  destruct (lookup_lt_is_Some_2 _ _ Hj) as [f Hf].
  unfold B2_matrix.
  rewrite (row_fmap _ _ _ _ _ Hx), (column_fmap _ _ _ _ _ Hf), dot_fmap.
  assert (nondegenerate f) as Hndf.
  { eapply (proj1 (Forall_forall _ _) Hnd). by eapply list_elem_of_lookup_2. }
  destruct (sorted_face f) as [[a b] c] eqn:Hs.
  destruct (sorted_face_lt _ _ _ _ Hndf Hs) as [Hab Hbc].
  assert (∀ e, e ∈ sides f → e ∈ sc_E sc) as Hsub.
  { intros e He. apply elem_of_sc_E. exists f.
    split; [by eapply list_elem_of_lookup_2|done]. }
  assert (sides f = [(a, b); (b, c); (a, c)]) as Hsides
    by (unfold sides; by rewrite Hs).
  assert ((a, b) ∈ sc_E sc ∧ (b, c) ∈ sc_E sc ∧ (a, c) ∈ sc_E sc) as (Hi1 & Hi2 & Hi3).
  { split_and!; apply Hsub; rewrite Hsides;
      rewrite !elem_of_cons; auto. }
  rewrite (vsum_fmap_ext _
    (λ e, (if decide (e = (a, b)) then incidence_entry x e else 0) +
          ((if decide (e = (b, c)) then incidence_entry x e else 0) +
           (if decide (e = (a, c)) then - incidence_entry x e else 0)))).
  - rewrite !vsum_fmap_add.
    rewrite (vsum_pick (incidence_entry x)) by (apply NoDup_sc_E || done).
    rewrite (vsum_pick (incidence_entry x)) by (apply NoDup_sc_E || done).
    rewrite (vsum_pick (λ e, - incidence_entry x e)) by (apply NoDup_sc_E || done).
    rewrite !incidence_entry_lt by lia. repeat case_decide; lia.
  - intros e He.
    rewrite (B2_entry_side e f a b c); [| |done..].
    + destruct (decide (e = (a, b))) as [->|H1].
      { rewrite decide_True by auto.
        rewrite !(decide_False (P := (a, b) = _)) by (intros [=]; lia). lia. }
      destruct (decide (e = (b, c))) as [->|H2].
      { rewrite decide_True by auto.
        rewrite !(decide_False (P := (b, c) = _)) by (intros [=]; lia). lia. }
      rewrite decide_False by (intros [?|?]; done).
      case_decide; lia.
    + by apply (sc_E_lt n simplices valid_idxs).
Qed.

Lemma boundary_of_boundary_is_zero_witness :
  let sc := random_SC_graph 4 [Face 2 0 1; Face 1 3 2] [0; 1; 2; 3] in
  Forall nondegenerate (sc_faces sc) ∧
  ∃ B1 B2,
    incidience_matrices (sc_V sc) (sc_E sc) (sc_faces sc) = Some (B1, B2) ∧
    ∀ i j : nat, (i < length (sc_V sc))%nat → (j < length (sc_faces sc))%nat →
      dot (row B1 i) (column B2 j) = 0.
Proof.
  assert (Forall nondegenerate
            (sc_faces (random_SC_graph 4 [Face 2 0 1; Face 1 3 2] [0; 1; 2; 3]))) as Hnd
    by by_decide.
  split; [exact Hnd|].
  exact (boundary_of_boundary_is_zero 4 [Face 2 0 1; Face 1 3 2] [0; 1; 2; 3] Hnd).
Defined.

(** * Further properties of the flow encoding *)

Section Flow_errors.

Variable E : list edge.
Hypothesis E_NoDup : NoDup E.

Lemma path_to_flow_loop_on_edges (path : list Z) (f f' : list Z) :
  path_to_flow_loop (dict_zip_range E) path f = Some f' → path_on_edges E path.
Proof.
  revert f. induction path as [|v0 [|v1 rest] IH]; intros f Hrun; [done..|].
  cbn [path_to_flow_loop] in Hrun.
  apply bind_Some in Hrun as (f1 & Hstep & Hrun).
  split; [|by eapply IH].
  case_decide.
  - apply bind_Some in Hstep as (k & Hk & _).
    apply dict_zip_range_lookup in Hk; [|done].
    left. by eapply list_elem_of_lookup_2.
  - apply bind_Some in Hstep as (k & Hk & _).
    apply dict_zip_range_lookup in Hk; [|done].
    right. by eapply list_elem_of_lookup_2.
Qed.

End Flow_errors.

Lemma path_on_edges_returns (E : list edge) :
  NoDup E → (∀ e, e ∈ E → e.1 < e.2) →
  ∀ path, path_on_edges E path →
    is_Some (path_to_flow path (dict_zip_range E) (length E)).
Proof.
  intros Hnd Hor path Hon.
  destruct (path_to_flow_loop_spec E Hnd Hor path (replicate (length E) 0))
    as (f & Hf & _); [by rewrite length_replicate|done|].
  by exists f.
Qed.

(** X7. On a duplicate-free edge list whose edges run from the lower to
    the higher node, [path_to_flow] returns a vector exactly when every
    step of the path runs along an edge; a step between two nodes that no
    edge joins, or from a node to itself, raises the [KeyError]. *)
Theorem path_to_flow_returns_iff_on_edges (E : list edge) (path : list Z) :
  NoDup E →
  (∀ e, e ∈ E → e.1 < e.2) →
  is_Some (path_to_flow path (dict_zip_range E) (length E)) ↔ path_on_edges E path.
Proof.
  intros Hnd Hor. split.
  - intros [f Hf]. by eapply path_to_flow_loop_on_edges.
  - by apply path_on_edges_returns.
Qed.

Lemma path_to_flow_returns_iff_on_edges_witness :
  let E : list edge := [(0, 1); (0, 2); (1, 2)] in
  (NoDup E ∧ (∀ e, e ∈ E → e.1 < e.2)) ∧
  (is_Some (path_to_flow [0; 1; 1] (dict_zip_range E) (length E)) ↔
   path_on_edges E [0; 1; 1]).
Proof.
  assert (NoDup [(0, 1); (0, 2); (1, 2)]) as H1 by by_decide.
  assert (∀ e : edge, e ∈ [(0, 1); (0, 2); (1, 2)] → e.1 < e.2) as H2.
  { apply Forall_forall. by_decide. }
  split; [done|].
  exact (path_to_flow_returns_iff_on_edges _ [0; 1; 1] H1 H2).
Defined.

Section Flow_boundary.

Variable E : list edge.
Hypothesis E_NoDup : NoDup E.
Hypothesis E_oriented : ∀ e, e ∈ E → e.1 < e.2.

Lemma path_to_flow_fmap (path : list Z) f :
  path_to_flow path (dict_zip_range E) (length E) = Some f →
  f = (λ e : edge, traversals e.1 e.2 path - traversals e.2 e.1 path) <$> E.
Proof.
  intros Hf.
  assert (path_on_edges E path) as Hon by (by eapply path_to_flow_loop_on_edges).
  destruct (path_to_flow_loop_spec E E_NoDup E_oriented path (replicate (length E) 0))
    as (f' & Hf' & Hlen & Hent); [by rewrite length_replicate|done|].
  unfold path_to_flow in Hf. rewrite Hf in Hf'. injection Hf' as <-.
  rewrite length_replicate in Hlen.
  apply list_eq. intros k. rewrite list_lookup_fmap.
  destruct (E !! k) as [[a b]|] eqn:Hk.
  - rewrite (Hent _ _ _ Hk).
    rewrite lookup_replicate_2 by (by eapply lookup_lt_Some). simpl. done.
  - simpl. apply lookup_ge_None_2. rewrite Hlen. by apply lookup_ge_None_1.
Qed.

Lemma incidence_entry_ind x a b :
  a < b → incidence_entry x (a, b) = ind x b - ind x a.
Proof.
  intros Hlt. rewrite incidence_entry_lt by done. unfold ind.
  repeat case_decide; lia.
Qed.

(** The net flow out of the edges at node [x]: the last node of the path
    counts +1, the first -1. *)
Lemma flow_divergence x (path : list Z) u w :
  path_on_edges E path → head path = Some u → last path = Some w →
  vsum ((λ e : edge, incidence_entry x e *
           (traversals e.1 e.2 path - traversals e.2 e.1 path)) <$> E)
  = ind x w - ind x u.
Proof.
  revert u. induction path as [|v0 [|v1 rest] IH]; intros u Hon Hh Hl; [done| |].
  - simpl in Hh, Hl. simplify_eq. rewrite vsum_fmap_zero; [lia|].
    intros e _. simpl. lia.
  - destruct Hon as [Hstep Hon]. injection Hh as <-.
    rewrite last_cons_cons in Hl.
    specialize (IH v1 Hon eq_refl Hl).
    assert (v0 ≠ v1) as Hne.
    { intros ->. destruct Hstep as [H|H]; apply E_oriented in H; simpl in H; lia. }
    set (e0 := if decide (v0 < v1) then (v0, v1) else (v1, v0)).
    set (sgn := if decide (v0 < v1) then 1 else -1).
    assert (e0 ∈ E) as He0.
    { unfold e0. case_decide; destruct Hstep as [Hs|Hs]; try done;
        apply E_oriented in Hs; simpl in Hs; lia. }
    rewrite (vsum_fmap_ext _
      (λ e : edge, (if decide (e = e0) then sgn * incidence_entry x e else 0) +
         incidence_entry x e *
           (traversals e.1 e.2 (v1 :: rest) - traversals e.2 e.1 (v1 :: rest)))).
    + rewrite vsum_fmap_add, IH.
      rewrite (vsum_pick (λ e, sgn * incidence_entry x e)) by done.
      unfold e0, sgn. case_decide; rewrite incidence_entry_ind by lia; lia.
    + intros [a b] He. pose proof (E_oriented _ He) as Hab.
      cbn [traversals fst snd] in *. unfold e0, sgn.
      repeat case_decide; simplify_eq; try lia;
        repeat match goal with
               | H : _ ∧ _ |- _ => destruct H
               | H : ¬ (_ ∧ _) |- _ => apply not_and_l in H as [?|?]
               end; subst; try lia; try congruence.
Qed.

End Flow_boundary.

(** X8. The flow of a path has the path's endpoints as its boundary:
    for a node list [V] and the oriented incidence matrix [B1] over a
    duplicate-free oriented edge list, the row of [B1] for node [x] times
    the flow of a path from [u] to [w] is [(x = w) - (x = u)], that is,
    [B1 @ f] is +1 at the end node, -1 at the start node (0 when they
    coincide) and 0 elsewhere. *)
Theorem flow_boundary_is_endpoints (V : list Z) (E : list edge) (B1 : matrix)
    (path f : list Z) (u w : Z) :
  NoDup E →
  (∀ e, e ∈ E → e.1 < e.2) →
  incidence_matrix V E = Some B1 →
  path_to_flow path (dict_zip_range E) (length E) = Some f →
  head path = Some u → last path = Some w →
  ∀ (i : nat) (x : Z), V !! i = Some x → dot (row B1 i) f = ind x w - ind x u.
Proof.
  intros Hnd Hor HB1 Hf Hh Hl i x Hx.
  unfold incidence_matrix in HB1. case_decide; [|done]. injection HB1 as <-.
  rewrite (row_fmap _ _ _ _ _ Hx).
  rewrite (path_to_flow_fmap E Hnd Hor path f Hf), dot_fmap.
  apply flow_divergence; [done..| |done|done].
  by eapply path_to_flow_loop_on_edges.
Qed.

Lemma flow_boundary_is_endpoints_witness :
  let V := [0; 1; 2] in
  let E : list edge := [(0, 1); (0, 2); (1, 2)] in
  let B1 := [[-1; -1; 0]; [1; 0; -1]; [0; 1; 1]] in
  (NoDup E ∧ (∀ e, e ∈ E → e.1 < e.2) ∧ incidence_matrix V E = Some B1 ∧
   path_to_flow [0; 1; 2; 0; 1] (dict_zip_range E) (length E) = Some [2; -1; 1] ∧
   head [0; 1; 2; 0; 1] = Some 0 ∧ last [0; 1; 2; 0; 1] = Some 1) ∧
  ∀ (i : nat) (x : Z), V !! i = Some x →
    dot (row B1 i) [2; -1; 1] = ind x 1 - ind x 0.
Proof.
  assert (NoDup [(0, 1); (0, 2); (1, 2)]) as H1 by by_decide.
  assert (∀ e : edge, e ∈ [(0, 1); (0, 2); (1, 2)] → e.1 < e.2) as H2.
  { apply Forall_forall. by_decide. }
  assert (incidence_matrix [0; 1; 2] [(0, 1); (0, 2); (1, 2)]
          = Some [[-1; -1; 0]; [1; 0; -1]; [0; 1; 1]]) as H3 by (by vm_compute).
  assert (path_to_flow [0; 1; 2; 0; 1] (dict_zip_range [(0, 1); (0, 2); (1, 2)])
            (length [(0, 1); (0, 2); (1, 2)]) = Some [2; -1; 1]) as H4
    by (by vm_compute).
  split; [done|].
  exact (flow_boundary_is_endpoints _ _ _ _ _ 0 1 H1 H2 H3 H4 eq_refl eq_refl).
Defined.

Section Reversal.

Lemma traversals_cons_cons a b x y (p : list Z) :
  traversals a b (x :: y :: p) =
  (if decide (x = a ∧ y = b) then 1 else 0) + traversals a b (y :: p).
Proof. done. Qed.

Lemma path_on_edges_cons_cons E x y (p : list Z) :
  path_on_edges E (x :: y :: p) ↔
  ((x, y) ∈ E ∨ (y, x) ∈ E) ∧ path_on_edges E (y :: p).
Proof. done. Qed.

Lemma traversals_snoc a b (p : list Z) v :
  traversals a b (p ++ [v]) =
  traversals a b p +
  match last p with
  | Some u => if decide (u = a ∧ v = b) then 1 else 0
  | None => 0
  end.
Proof.
  induction p as [|x p IH]; [done|].
  destruct p as [|y p]; [simpl; lia|].
  rewrite last_cons_cons, <- !app_comm_cons, !traversals_cons_cons.
  rewrite (app_comm_cons p [v] y), IH. lia.
Qed.

Lemma traversals_reverse a b (p : list Z) :
  traversals a b (reverse p) = traversals b a p.
Proof.
  induction p as [|x p IH]; [done|].
  rewrite reverse_cons, traversals_snoc, IH, last_reverse.
  destruct p as [|y p]; simpl; [lia|].
  repeat case_decide; try lia; exfalso; tauto.
Qed.

Lemma path_on_edges_snoc E (p : list Z) v :
  path_on_edges E (p ++ [v]) ↔
  path_on_edges E p ∧ ∀ u, last p = Some u → (u, v) ∈ E ∨ (v, u) ∈ E.
Proof.
  induction p as [|x p IH].
  - simpl. split; [intros _; split; [done|intros ? [=]]|done].
  - destruct p as [|y p].
    + simpl. split.
      * intros [H _]. split; [done|]. by intros ? [= <-].
      * intros [_ H]. split; [by apply H|done].
    + rewrite last_cons_cons, <- !app_comm_cons, !path_on_edges_cons_cons.
      rewrite (app_comm_cons p [v] y), IH. tauto.
Qed.

Lemma path_on_edges_reverse E (p : list Z) :
  path_on_edges E p → path_on_edges E (reverse p).
Proof.
  induction p as [|x p IH]; [done|]. intros Hon.
  rewrite reverse_cons. apply path_on_edges_snoc. split.
  - apply IH. destruct p; [done|]. by destruct Hon.
  - intros u. rewrite last_reverse. destruct p as [|y p]; [done|].
    intros [= <-]. destruct Hon as [[?|?] _]; auto.
Qed.

End Reversal.

(** X9. Walking a path backwards negates its flow: when [path_to_flow]
    returns [f] for a path, it returns [-f] for the reversed path. *)
Theorem flow_of_reversed_path (E : list edge) (path f : list Z) :
  NoDup E →
  (∀ e, e ∈ E → e.1 < e.2) →
  path_to_flow path (dict_zip_range E) (length E) = Some f →
  path_to_flow (reverse path) (dict_zip_range E) (length E) = Some (Z.opp <$> f).
Proof.
  intros Hnd Hor Hf.
  assert (path_on_edges E (reverse path)) as Hon.
  { apply path_on_edges_reverse. by eapply path_to_flow_loop_on_edges. }
  apply (path_on_edges_returns E Hnd Hor) in Hon as [g Hg].
  rewrite Hg. f_equal.
  rewrite (path_to_flow_fmap E Hnd Hor _ _ Hg), (path_to_flow_fmap E Hnd Hor _ _ Hf).
  rewrite <- list_fmap_compose. apply list_fmap_ext.
  intros k e _. simpl. rewrite !traversals_reverse. lia.
Qed.

Lemma flow_of_reversed_path_witness :
  let E : list edge := [(0, 1); (0, 2); (1, 2)] in
  (NoDup E ∧ (∀ e, e ∈ E → e.1 < e.2) ∧
   path_to_flow [0; 1; 2; 0; 1] (dict_zip_range E) (length E) = Some [2; -1; 1]) ∧
  path_to_flow (reverse [0; 1; 2; 0; 1]) (dict_zip_range E) (length E)
    = Some (Z.opp <$> [2; -1; 1]).
Proof.
  assert (NoDup [(0, 1); (0, 2); (1, 2)]) as H1 by by_decide.
  assert (∀ e : edge, e ∈ [(0, 1); (0, 2); (1, 2)] → e.1 < e.2) as H2.
  { apply Forall_forall. by_decide. }
  assert (path_to_flow [0; 1; 2; 0; 1] (dict_zip_range [(0, 1); (0, 2); (1, 2)])
            (length [(0, 1); (0, 2); (1, 2)]) = Some [2; -1; 1]) as H3
    by (by vm_compute).
  split; [done|].
  exact (flow_of_reversed_path _ _ _ H1 H2 H3).
Defined.

(** * Further properties of the undirected graph and of the targets *)

(** X10. The undirected graph of a complex whose retained faces are
    proper triangles: its nodes are those of the node list; two nodes are
    adjacent exactly when an edge of the edge list joins them, in either
    order; adjacency is symmetric, no node is adjacent to itself, and
    every neighbour is a node. *)
Theorem undirected_graph_of_complex (n : Z) (simplices : list face)
    (valid_idxs : list Z) :
  let sc := random_SC_graph n simplices valid_idxs in
  let G_undir := to_undirected (sc_G sc) in
  Forall nondegenerate (sc_faces sc) →
  (∀ v, is_Some (G_undir !! v) ↔ v ∈ sc_V sc) ∧
  (∀ v w, adjacent G_undir v w ↔ (v, w) ∈ sc_E sc ∨ (w, v) ∈ sc_E sc) ∧
  graph_symmetric G_undir ∧
  (∀ v, ¬ adjacent G_undir v v) ∧
  graph_closed G_undir.
Proof.
  intros sc G_undir Hnd.
  assert (∀ v, is_Some (G_undir !! v) ↔ v ∈ sc_V sc) as Hdom.
  { intros v. unfold G_undir, sc. rewrite <- sc_G_nodes. split.
    - intros [N HN]. by apply lookup_to_undirected in HN as [? _].
    - intros Hv. eexists. by apply lookup_to_undirected. }
  assert (∀ v w, adjacent G_undir v w ↔ (v, w) ∈ sc_E sc ∨ (w, v) ∈ sc_E sc) as Hadj.
  { intros v w. unfold G_undir. rewrite adjacent_to_undirected.
    unfold sc. rewrite !sc_G_edges, sc_G_nodes. split; [tauto|].
    intros He. split; [|done].
    destruct He as [He|He]; apply sc_E_endpoints in He as [? ?]; done. }
  split; [done|]. split; [done|]. split_and!.
  - intros v w. rewrite !Hadj. tauto.
  - intros v. rewrite Hadj.
    intros [He|He]; apply (sc_E_lt n simplices valid_idxs Hnd) in He;
      simpl in He; lia.
  - intros v N w HN Hw. apply Hdom.
    assert (adjacent G_undir v w) as Hvw by (by exists N).
    apply Hadj in Hvw as [He|He]; apply sc_E_endpoints in He as [? ?]; done.
Qed.

Lemma undirected_graph_of_complex_witness :
  let sc := random_SC_graph 4 [Face 2 0 1; Face 1 3 2] [0; 1; 2; 3] in
  let G_undir := to_undirected (sc_G sc) in
  Forall nondegenerate (sc_faces sc) ∧
  (∀ v, is_Some (G_undir !! v) ↔ v ∈ sc_V sc) ∧
  (∀ v w, adjacent G_undir v w ↔ (v, w) ∈ sc_E sc ∨ (w, v) ∈ sc_E sc) ∧
  graph_symmetric G_undir ∧
  (∀ v, ¬ adjacent G_undir v v) ∧
  graph_closed G_undir.
Proof.
  assert (Forall nondegenerate
            (sc_faces (random_SC_graph 4 [Face 2 0 1; Face 1 3 2] [0; 1; 2; 3]))) as Hnd
    by by_decide.
  split; [exact Hnd|].
  exact (undirected_graph_of_complex 4 [Face 2 0 1; Face 1 3 2] [0; 1; 2; 3] Hnd).
Defined.

Section Max_degree.

Lemma foldl_max_ge (d : nat) (ds : list nat) :
  (d ≤ foldl Nat.max d ds)%nat ∧ Forall (λ x, x ≤ foldl Nat.max d ds)%nat ds.
Proof.
  revert d. induction ds as [|x ds IH]; intros d; simpl; [by split|].
  destruct (IH (d `max` x)%nat) as [H1 H2]. split; [lia|].
  constructor; [lia|done].
Qed.

Lemma foldl_max_elem (d : nat) (ds : list nat) :
  foldl Nat.max d ds ∈ d :: ds.
Proof.
  revert d. induction ds as [|x ds IH]; intros d; simpl; [left|].
  specialize (IH (d `max` x)%nat).
  apply elem_of_cons in IH as [Heq|Hin]; [|by do 2 right].
  rewrite Heq. destruct (Nat.max_spec d x) as [[_ ->]|[_ ->]]; [right; left|left].
Qed.

Lemma D_1hop_spec (G : Graph) :
  match D_1hop G with
  | Some D =>
      (∀ v, is_Some (G !! v) → degree G v ≤ D)%nat ∧
      ∃ v, is_Some (G !! v) ∧ degree G v = D
  | None => G = ∅
  end.
Proof.
  unfold D_1hop.
  destruct (elements (dom G)) as [|v0 vs] eqn:Hel; cbn [fmap list_fmap].
  - apply elements_empty_inv in Hel. apply leibniz_equiv in Hel.
    by apply dom_empty_inv_L in Hel.
  - assert (∀ v, is_Some (G !! v) ↔ v ∈ v0 :: vs) as Hdom.
    { intros v. by rewrite <- Hel, elem_of_elements, elem_of_dom. }
    destruct (foldl_max_ge (degree G v0) (degree G <$> vs)) as [H0 Hall].
    split.
    + intros v Hv. apply Hdom in Hv. apply elem_of_cons in Hv as [->|Hv]; [done|].
      rewrite Forall_fmap, Forall_forall in Hall. by apply Hall.
    + pose proof (foldl_max_elem (degree G v0) (degree G <$> vs)) as Hin.
      apply elem_of_cons in Hin as [Heq|Hin].
      * exists v0. split; [apply Hdom; left|done].
      * apply list_elem_of_fmap in Hin as (v & Heq & Hv).
        exists v. split; [apply Hdom; by right|done].
Qed.

End Max_degree.

(** X11. The padding size [D_1hop] is the largest degree of the graph: no
    node has a larger degree and some node has exactly that degree; on a
    graph without nodes, and only there, taking the maximum raises. *)
Theorem D_1hop_is_max_degree (G : Graph) :
  (D_1hop G = None ↔ G = ∅) ∧
  ∀ D, D_1hop G = Some D →
    (∀ v, is_Some (G !! v) → degree G v ≤ D)%nat ∧
    ∃ v, is_Some (G !! v) ∧ degree G v = D.
Proof.
  pose proof (D_1hop_spec G) as Hspec. split.
  - split.
    + intros Hnone. by rewrite Hnone in Hspec.
    + intros ->. done.
  - intros D HD. by rewrite HD in Hspec.
Qed.

Lemma D_1hop_is_max_degree_witness :
  D_1hop path_graph3 = Some 2%nat ∧
  (∀ v, is_Some (path_graph3 !! v) → degree path_graph3 v ≤ 2)%nat ∧
  ∃ v, is_Some (path_graph3 !! v) ∧ degree path_graph3 v = 2%nat.
Proof.
  assert (D_1hop path_graph3 = Some 2%nat) as H by (by vm_compute).
  split; [exact H|].
  exact (proj2 (D_1hop_is_max_degree path_graph3) 2%nat H).
Defined.

Section Conditional_incidence.

Lemma py_index_nonneg {A} (l : list A) (v : Z) :
  0 ≤ v → py_index l v = l !! Z.to_nat v.
Proof. intros Hv. unfold py_index. by rewrite decide_True. Qed.

Lemma py_index_out_of_range {A} (l : list A) (v : Z) :
  v < - Z.of_nat (length l) ∨ Z.of_nat (length l) ≤ v → py_index l v = None.
Proof.
  intros Hv. unfold py_index. case_decide.
  - apply lookup_ge_None_2. lia.
  - rewrite decide_False; [done|lia].
Qed.

End Conditional_incidence.

(** X12. For neighbours that are rows of [B1] and at most [D] of them,
    the conditional incidence matrix is produced with exactly [D] rows: row
    [i] is the row of [B1] for the [i]-th neighbour, and the rows after the
    last neighbour are zero rows as wide as [B1]. *)
Theorem conditional_incidence_matrix_rows (B1 : matrix) (Nv : list Z) (D : nat) :
  Forall (λ v, 0 ≤ v < Z.of_nat (length B1)) Nv →
  (length Nv ≤ D)%nat →
  ∃ Bcond,
    conditional_incidence_matrix B1 Nv D = Some Bcond ∧
    length Bcond = D ∧
    (∀ (i : nat) v, Nv !! i = Some v → Bcond !! i = B1 !! Z.to_nat v) ∧
    (∀ i : nat, (length Nv ≤ i < D)%nat →
       Bcond !! i = Some (replicate (matrix_cols B1) 0)).
Proof.
  intros Hr Hlen. unfold conditional_incidence_matrix.
  assert (is_Some (mapM (py_index B1) Nv)) as [rows Hrows].
  { apply mapM_is_Some. apply Forall_forall. intros v Hv.
    apply (proj1 (Forall_forall _ _) Hr) in Hv. simpl.
    rewrite py_index_nonneg by lia. apply lookup_lt_is_Some_2. lia. }
  rewrite Hrows. cbn [mbind option_bind].
  pose proof (length_mapM _ _ _ Hrows) as Hl.
  rewrite decide_True by lia. eexists. split; [done|].
  apply mapM_Some in Hrows.
  rewrite take_ge by (rewrite length_app, length_replicate; lia).
  split_and!.
  - rewrite length_app, length_replicate. lia.
  - intros i v Hi.
    destruct (Forall2_lookup_l _ _ _ _ _ Hrows Hi) as (r & Hr' & Hpy).
    rewrite lookup_app_l by (by eapply lookup_lt_Some).
    rewrite Hr', <- Hpy. apply py_index_nonneg.
    apply (proj1 (Forall_forall _ _) Hr v). by eapply list_elem_of_lookup_2.
  - intros i [Hi1 Hi2]. rewrite lookup_app_r by lia.
    apply lookup_replicate_2. lia.
Qed.

Lemma conditional_incidence_matrix_rows_witness :
  let B1 := [[-1; -1; 0]; [1; 0; -1]; [0; 1; 1]] in
  (Forall (λ v, 0 ≤ v < Z.of_nat (length B1)) [0; 2] ∧ (length [0; 2] ≤ 3)%nat) ∧
  ∃ Bcond,
    conditional_incidence_matrix B1 [0; 2] 3 = Some Bcond ∧
    length Bcond = 3%nat ∧
    (∀ (i : nat) v, [0; 2] !! i = Some v → Bcond !! i = B1 !! Z.to_nat v) ∧
    (∀ i : nat, (length [0; 2] ≤ i < 3)%nat →
       Bcond !! i = Some (replicate (matrix_cols B1) 0)).
Proof.
  assert (Forall (λ v, 0 ≤ v < Z.of_nat (length [[-1; -1; 0]; [1; 0; -1]; [0; 1; 1]]))
            [0; 2]) as H1 by by_decide.
  assert (length [0; 2] ≤ 3)%nat as H2 by (simpl; lia).
  split; [done|].
  exact (conditional_incidence_matrix_rows [[-1; -1; 0]; [1; 0; -1]; [0; 1; 1]]
           [0; 2] 3 H1 H2).
Defined.

(** X13. The conditional incidence matrix is not produced when an index
    addresses no row of [B1], or when there are more neighbours than the
    [D] rows of the result (a single neighbour excepted, which numpy
    broadcasts). *)
Theorem conditional_incidence_matrix_errors (B1 : matrix) (Nv : list Z) (D : nat) :
  (∃ v, v ∈ Nv ∧ (v < - Z.of_nat (length B1) ∨ Z.of_nat (length B1) ≤ v)) ∨
  (D < length Nv ∧ length Nv ≠ 1)%nat →
  conditional_incidence_matrix B1 Nv D = None.
Proof.
  intros Herr. unfold conditional_incidence_matrix.
  destruct (mapM (py_index B1) Nv) as [rows|] eqn:Hrows; [|done].
  cbn [mbind option_bind].
  pose proof (length_mapM _ _ _ Hrows) as Hl.
  destruct Herr as [(v & Hv & Hout)|[Hlen Hne]].
  - exfalso. apply mapM_Some in Hrows.
    apply list_elem_of_lookup_1 in Hv as [i Hi].
    destruct (Forall2_lookup_l _ _ _ _ _ Hrows Hi) as (r & _ & Hpy).
    by rewrite py_index_out_of_range in Hpy.
  - rewrite decide_False; [done|lia].
Qed.

Lemma conditional_incidence_matrix_errors_witness :
  let B1 := [[-1; -1; 0]; [1; 0; -1]; [0; 1; 1]] in
  ((∃ v, v ∈ [0; 3] ∧ (v < - Z.of_nat (length B1) ∨ Z.of_nat (length B1) ≤ v)) ∨
   (3 < length [0; 3] ∧ length [0; 3] ≠ 1)%nat) ∧
  conditional_incidence_matrix B1 [0; 3] 3 = None.
Proof.
  assert ((∃ v, v ∈ [0; 3] ∧
             (v < - Z.of_nat (length [[-1; -1; 0]; [1; 0; -1]; [0; 1; 1]]) ∨
              Z.of_nat (length [[-1; -1; 0]; [1; 0; -1]; [0; 1; 1]]) ≤ v)) ∨
          (3 < length [0; 3] ∧ length [0; 3] ≠ 1)%nat) as H.
  { left. exists 3. split; [by_decide|right; simpl; lia]. }
  split; [exact H|].
  exact (conditional_incidence_matrix_errors [[-1; -1; 0]; [1; 0; -1]; [0; 1; 1]]
           [0; 3] 3 H).
Defined.

Section Targets_on_walks.

Variable G : Graph.

Lemma is_walk_tail x p : is_walk G (x :: p) → is_walk G p.
Proof. intros H. by apply is_walk_cons in H as [_ ?]. Qed.

Lemma is_walk_lookup p (i : nat) u v :
  is_walk G p → p !! i = Some u → p !! S i = Some v → adjacent G u v.
Proof.
  revert i. induction p as [|x p IH]; intros i Hw Hu Hv; [done|].
  destruct i as [|i].
  - destruct p as [|y p]; [done|]. simpl in *. simplify_eq. by destruct Hw.
  - apply (IH i); [by eapply is_walk_tail|done..].
Qed.

Lemma is_walk_drop k p : is_walk G p → is_walk G (drop k p).
Proof.
  revert p. induction k as [|k IH]; intros p Hw; [by rewrite drop_0|].
  destruct p as [|x p]; [done|]. simpl. apply IH. by eapply is_walk_tail.
Qed.

Lemma is_walk_take k p : is_walk G p → is_walk G (take k p).
Proof.
  intros Hw. rewrite <- (take_drop k p) in Hw. by eapply is_walk_app_inv_l.
Qed.

End Targets_on_walks.

(** X14. On a walk of the graph the target is never empty: for a hop
    [h] between 1 and [max(hops)], a walk with more than [max(hops)] nodes
    and the padding size [D_1hop], the pivot [s[h-1]] and the true next
    node [s[h]] of the suffix are adjacent, the target is produced with
    length [D_1hop], and exactly one of its entries is 1. *)
Theorem target_on_walk_has_single_one (G : Graph) (D : nat) (q : list Z) (mh h : Z) :
  D_1hop G = Some D →
  is_walk G q →
  1 ≤ h ≤ mh →
  mh < Z.of_nat (length q) →
  let s := py_drop (- (mh + 1)) q in
  ∃ t pivot w,
    py_index s (h - 1) = Some pivot ∧ py_index s h = Some w ∧
    adjacent G pivot w ∧
    target G D h s = Some t ∧ length t = D ∧ count_eq 1 t = 1%nat.
Proof.
  intros HD Hw Hh Hlen s.
  set (k := Z.to_nat (Z.of_nat (length q) - (mh + 1))).
  assert (s = drop k q) as Hs.
  { unfold s, py_drop, py_bound. rewrite decide_True by lia.
    f_equal; try (unfold k; lia). }
  assert (∀ j : Z, 0 ≤ j ≤ mh → py_index s j = q !! (k + Z.to_nat j)%nat) as Hidx.
  { intros j Hj. rewrite py_index_nonneg by lia. by rewrite Hs, lookup_drop. }
  destruct (lookup_lt_is_Some_2 q (k + Z.to_nat (h - 1))%nat) as [pivot Hp];
    [unfold k; lia|].
  destruct (lookup_lt_is_Some_2 q (k + Z.to_nat h)%nat) as [w Hw'];
    [unfold k; lia|].
  assert (adjacent G pivot w) as Hadj.
  { apply (is_walk_lookup G q (k + Z.to_nat (h - 1))%nat); [done..|].
    rewrite <- Hw'. f_equal. lia. }
  destruct Hadj as (N & HN & HwN).
  pose proof (D_1hop_spec G) as Hmax. rewrite HD in Hmax.
  destruct Hmax as [Hmax _].
  assert (length (sorted (elements N)) ≤ D)%nat as HlenN.
  { rewrite sorted_elements_length.
    pose proof (degree_size _ _ _ HN). pose proof (Hmax pivot (mk_is_Some _ _ HN)). lia. }
  destruct (neighborhood_to_onehot_spec (sorted (elements N)) w D
              (sorted_elements_NoDup N) HlenN) as (t & Ht & HtD & _ & Hcnt).
  exists t, pivot, w. rewrite !Hidx by lia. split_and!; [done|done| | | |].
  - by exists N.
  - unfold target, neighborhood. rewrite !Hidx by lia.
    rewrite Hp. cbn [mbind option_bind]. rewrite HN.
    cbn [fmap option_fmap option_map mbind option_bind]. rewrite Hw'.
    cbn [mbind option_bind]. exact Ht.
  - done.
  - rewrite Hcnt. rewrite decide_True; [done|]. by apply elem_of_sorted_elements.
Qed.

Lemma target_on_walk_has_single_one_witness :
  let s := py_drop (- (2 + 1)) [0; 1; 2; 1] in
  (D_1hop path_graph3 = Some 2%nat ∧ is_walk path_graph3 [0; 1; 2; 1] ∧
   1 ≤ 2 ≤ 2 ∧ 2 < Z.of_nat (length [0; 1; 2; 1])) ∧
  ∃ t pivot w,
    py_index s (2 - 1) = Some pivot ∧ py_index s 2 = Some w ∧
    adjacent path_graph3 pivot w ∧
    target path_graph3 2 2 s = Some t ∧ length t = 2%nat ∧ count_eq 1 t = 1%nat.
Proof.
  assert (D_1hop path_graph3 = Some 2%nat) as H1 by (by vm_compute).
  assert (is_walk path_graph3 [0; 1; 2; 1]) as H2.
  { simpl. split_and!; try done; by_decide. }
  assert (1 ≤ 2 ≤ 2) as H3 by lia.
  assert (2 < Z.of_nat (length [0; 1; 2; 1])) as H4 by (simpl; lia).
  split; [done|].
  exact (target_on_walk_has_single_one path_graph3 2 [0; 1; 2; 1] 2 2 H1 H2 H3 H4).
Defined.

(** * Further properties of the truncation, the split and the masks *)

(** X15. A truncated walk is an initial segment of the walk, so it is
    still a walk of the graph; it keeps at least four nodes of a walk that
    has four, and a walk with fewer than four nodes comes back whole. *)
Theorem truncated_walk_is_prefix (hops : list Z) (mh : Z) (p : list Z)
    (s : rng) (q : list Z) (s' : rng) :
  py_max hops = Some mh →
  truncate hops p s = Some (q, s') →
  q `prefix_of` p ∧
  ((4 ≤ length p)%nat → (4 ≤ length q)%nat) ∧
  ((length p < 4)%nat → q = p) ∧
  ∀ G, is_walk G p → is_walk G q.
Proof.
  intros Hmh Htr.
  destruct (decide (0 < Z.of_nat (length p) - 4 + (mh - 1))) as [Hk|Hk];
    [|rewrite (truncate_None _ _ _ _ Hmh) in Htr; [done|lia]].
  rewrite (truncate_Some _ _ _ _ Hmh Hk) in Htr. injection Htr as <- _.
  pose proof (Z.mod_pos_bound (Z.of_nat (s 0%nat)) _ Hk) as Hr.
  split_and!.
  - apply prefix_take.
  - intros Hlen. rewrite length_take. lia.
  - intros Hlen. apply take_ge. lia.
  - intros G. apply is_walk_take.
Qed.

Lemma truncated_walk_is_prefix_witness :
  (py_max [1; 2] = Some 2 ∧
   truncate [1; 2] (seqZ 0 6) (const_rng 1) = Some (seqZ 0 5, const_rng 1)) ∧
  seqZ 0 5 `prefix_of` seqZ 0 6 ∧
  ((4 ≤ length (seqZ 0 6))%nat → (4 ≤ length (seqZ 0 5))%nat) ∧
  ((length (seqZ 0 6) < 4)%nat → seqZ 0 5 = seqZ 0 6) ∧
  ∀ G, is_walk G (seqZ 0 6) → is_walk G (seqZ 0 5).
Proof.
  assert (py_max [1; 2] = Some 2) as H1 by reflexivity.
  assert (truncate [1; 2] (seqZ 0 6) (const_rng 1) = Some (seqZ 0 5, const_rng 1)) as H2
    by (vm_compute; reflexivity).
  split; [done|].
  exact (truncated_walk_is_prefix [1; 2] 2 (seqZ 0 6) (const_rng 1) (seqZ 0 5)
           (const_rng 1) H1 H2).
Defined.

Section Split.

Lemma mapM_Some_fmap {A B} (f : A → option B) (g : A → B) (l : list A) :
  (∀ x, x ∈ l → f x = Some (g x)) → mapM f l = Some (g <$> l).
Proof.
  intros Hfg. apply mapM_Some, Forall2_fmap_r, Forall_Forall2_diag, Forall_forall.
  done.
Qed.

End Split.

(** X16. Prefix and suffix share exactly one node.  When [max(hops)] is
    at least 1 and every truncated walk has more than [max(hops)] nodes,
    the three lists are produced, and for each walk: the prefix followed by
    the suffix without its first node is the walk again, the suffix has
    [max(hops) + 1] nodes, and its first node, recorded in [last_nodes], is
    the last node of the prefix. *)
Theorem prefix_suffix_split (hops : list Z) (mh : Z) (paths : list (list Z)) :
  py_max hops = Some mh →
  1 ≤ mh →
  Forall (λ q, mh < Z.of_nat (length q)) paths →
  ∃ pre suf ln,
    prefixes hops paths = Some pre ∧
    suffixes_with_last_pref hops paths = Some suf ∧
    last_nodes suf = Some ln ∧
    ∀ (i : nat) q, paths !! i = Some q →
      ∃ p s v, pre !! i = Some p ∧ suf !! i = Some s ∧ ln !! i = Some v ∧
               q = p ++ drop 1 s ∧
               length s = Z.to_nat (mh + 1) ∧
               head s = Some v ∧ last p = Some v.
Proof.
  intros Hmh Hpos Hlen.
  assert (prefixes hops paths = Some (py_take (- mh) <$> paths)) as Hpre.
  { unfold prefixes. apply mapM_Some_fmap. intros q _. by rewrite Hmh. }
  assert (suffixes_with_last_pref hops paths
          = Some (py_drop (- (mh + 1)) <$> paths)) as Hsuf.
  { unfold suffixes_with_last_pref. apply mapM_Some_fmap. intros q _. by rewrite Hmh. }
  assert (∀ q, q ∈ paths →
            let k := Z.to_nat (Z.of_nat (length q) - (mh + 1)) in
            py_take (- mh) q = take (S k) q ∧
            py_drop (- (mh + 1)) q = drop k q ∧
            is_Some (q !! k)) as Hq.
  { intros q Hin k. apply (proj1 (Forall_forall _ _) Hlen) in Hin.
    unfold py_take, py_drop, py_bound. rewrite !decide_True by lia.
    split_and!.
    - f_equal. unfold k. lia.
    - f_equal; try (unfold k; lia).
    - apply lookup_lt_is_Some_2. unfold k. lia. }
  assert (last_nodes (py_drop (- (mh + 1)) <$> paths) =
          Some ((λ q, default 0 (q !! Z.to_nat (Z.of_nat (length q) - (mh + 1))))
                <$> paths)) as Hln.
  { unfold last_nodes. apply mapM_Some, Forall2_fmap, Forall_Forall2_diag, Forall_forall.
    intros q Hin. destruct (Hq q Hin) as (_ & -> & [v Hv]).
    rewrite py_index_nonneg by lia. rewrite lookup_drop, Nat.add_0_r.
    cbv zeta in Hv. by rewrite Hv. }
  eexists _, _, _. split_and!; [done..|].
  intros i q Hi.
  assert (q ∈ paths) as Hin by (by eapply list_elem_of_lookup_2).
  destruct (Hq q Hin) as (Hp & Hs & [v Hv]). cbv zeta in Hp, Hs, Hv.
  set (k := Z.to_nat (Z.of_nat (length q) - (mh + 1))) in *.
  pose proof (proj1 (Forall_forall _ _) Hlen q Hin) as HL. simpl in HL.
  exists (take (S k) q), (drop k q), v.
  rewrite !list_lookup_fmap, Hi. simpl. rewrite Hp, Hs. fold k. rewrite Hv.
  split_and!; [done..| | | |].
  - rewrite drop_drop. replace (k + 1)%nat with (S k) by lia.
    by rewrite take_drop.
  - rewrite length_drop. unfold k. lia.
  - by rewrite head_lookup, lookup_drop, Nat.add_0_r.
  - rewrite last_lookup, length_take, lookup_take_lt by lia.
    rewrite <- Hv. f_equal. apply lookup_lt_Some in Hv. lia.
Qed.

Lemma prefix_suffix_split_witness :
  (py_max [1; 2] = Some 2 ∧ 1 ≤ 2 ∧
   Forall (λ q, 2 < Z.of_nat (length q)) [[0; 1; 2; 3]; [4; 5; 6; 7; 8]]) ∧
  ∃ pre suf ln,
    prefixes [1; 2] [[0; 1; 2; 3]; [4; 5; 6; 7; 8]] = Some pre ∧
    suffixes_with_last_pref [1; 2] [[0; 1; 2; 3]; [4; 5; 6; 7; 8]] = Some suf ∧
    last_nodes suf = Some ln ∧
    ∀ (i : nat) q, [[0; 1; 2; 3]; [4; 5; 6; 7; 8]] !! i = Some q →
      ∃ p s v, pre !! i = Some p ∧ suf !! i = Some s ∧ ln !! i = Some v ∧
               q = p ++ drop 1 s ∧
               length s = Z.to_nat (2 + 1) ∧
               head s = Some v ∧ last p = Some v.
Proof.
  assert (py_max [1; 2] = Some 2) as H1 by reflexivity.
  assert (1 ≤ 2) as H2 by lia.
  assert (Forall (λ q, 2 < Z.of_nat (length q)) [[0; 1; 2; 3]; [4; 5; 6; 7; 8]]) as H3
    by by_decide.
  split; [done|].
  exact (prefix_suffix_split [1; 2] 2 [[0; 1; 2; 3]; [4; 5; 6; 7; 8]] H1 H2 H3).
Defined.

(** X17. For [N] examples the train mask holds [int(0.8 N)] ones and
    [int(0.2 N)] zeros and nothing else, and the test mask is its
    complement entry by entry; both masks have [N] entries exactly when 5
    divides [N], and [N - 1] entries otherwise. *)
Theorem masks_counts_and_complement (N : Z) (s : rng) :
  0 ≤ N →
  ∃ train_mask test_mask s',
    train_test_masks N s = Some (train_mask, test_mask, s') ∧
    Z.of_nat (count_eq 1 train_mask) = (4 * N) `div` 5 ∧
    Z.of_nat (count_eq 0 train_mask) = N `div` 5 ∧
    length test_mask = length train_mask ∧
    (∀ i x, train_mask !! i = Some x →
       (x = 0 ∨ x = 1) ∧ test_mask !! i = Some (1 - x)) ∧
    Z.of_nat (length train_mask) = (if decide (N `mod` 5 = 0) then N else N - 1).
Proof.
  intros HN.
  destruct (train_test_masks_spec N s HN)
    as (tr & te & s' & Hrun & Hlen & Hte & H1 & H0 & Hent).
  exists tr, te, s'. unfold int_mul_08, int_mul_02 in *.
  split_and!; [done..| |].
  - intros i x Hi. destruct (Hent i x Hi) as (Hx & y & Hy & Hxy).
    split; [done|]. rewrite Hy. f_equal. lia.
  - rewrite Hlen. case_decide; Z.div_mod_to_equations; lia.
Qed.

Lemma masks_counts_and_complement_witness :
  0 ≤ 7 ∧
  ∃ train_mask test_mask s',
    train_test_masks 7 (const_rng 3) = Some (train_mask, test_mask, s') ∧
    Z.of_nat (count_eq 1 train_mask) = (4 * 7) `div` 5 ∧
    Z.of_nat (count_eq 0 train_mask) = 7 `div` 5 ∧
    length test_mask = length train_mask ∧
    (∀ i x, train_mask !! i = Some x →
       (x = 0 ∨ x = 1) ∧ test_mask !! i = Some (1 - x)) ∧
    Z.of_nat (length train_mask) = (if decide (7 `mod` 5 = 0) then 7 else 7 - 1).
Proof.
  assert (0 ≤ 7) as H by lia.
  split; [exact H|].
  exact (masks_counts_and_complement 7 (const_rng 3) H).
Defined.

(** * Further properties of the multi-hop neighbourhood and of the generator *)

Section Multi_hop_depth.

Variable G : Graph.

Lemma foldl_update_error (g : Z → outcome (gset Z)) (l : list Z) :
  foldl (λ acc nbr,
           match acc with
           | Returns Nv =>
               match g nbr with
               | Returns Nh => Returns (Nv ∪ Nh)
               | err => err
               end
           | err => err
           end) RecursionError l = RecursionError.
Proof. by induction l. Qed.

Lemma foldl_update_first_error (g : Z → outcome (gset Z)) (x : Z) (l : list Z) acc :
  g x = RecursionError →
  foldl (λ acc nbr,
           match acc with
           | Returns Nv =>
               match g nbr with
               | Returns Nh => Returns (Nv ∪ Nh)
               | err => err
               end
           | err => err
           end) (Returns acc) (x :: l) = RecursionError.
Proof. intros Hx. cbn [foldl]. rewrite Hx. apply foldl_update_error. Qed.

End Multi_hop_depth.

Lemma graph_symmetric_alt (G : Graph) :
  map_Forall (λ v N, set_Forall (λ w, adjacent G w v) N) G → graph_symmetric G.
Proof. intros H v w (N & HN & Hw). exact (H v N HN w Hw). Qed.

(** X18. With a hop count of 0 or less the recursion never reaches its
    base case: in an undirected graph, from a node that has a neighbour,
    the call exhausts every call depth. *)
Theorem multi_hop_nonpositive_never_returns (G : Graph) (v w h : Z) (depth : nat) :
  graph_symmetric G →
  adjacent G v w →
  h ≤ 0 →
  multi_hop_neighborhood depth G v h = RecursionError.
Proof.
  intros Hsym. revert v w h.
  induction depth as [|depth IH]; intros v w h Hadj Hh; [done|].
  cbn [multi_hop_neighborhood].
  destruct Hadj as (N & HN & Hw). rewrite HN, decide_False by lia.
  destruct (elements N) as [|u us] eqn:Hel.
  { apply elements_empty_inv in Hel. apply leibniz_equiv in Hel. set_solver. }
  apply foldl_update_first_error.
  apply (IH u v); [|lia].
  apply Hsym. exists N. split; [done|].
  apply elem_of_elements. rewrite Hel. left.
Qed.

Lemma multi_hop_nonpositive_never_returns_witness :
  (graph_symmetric path_graph3 ∧ adjacent path_graph3 0 1 ∧ 0 ≤ 0) ∧
  multi_hop_neighborhood 50 path_graph3 0 0 = RecursionError.
Proof.
  assert (graph_symmetric path_graph3) as H1
    by (apply graph_symmetric_alt; by_decide).
  assert (adjacent path_graph3 0 1) as H2 by by_decide.
  assert (0 ≤ 0) as H3 by lia.
  split; [done|].
  exact (multi_hop_nonpositive_never_returns path_graph3 0 1 0 50 H1 H2 H3).
Defined.

(** X19. In an undirected graph every node reached in exactly [h] hops
    is reached again in [h + 2] hops, by stepping to a neighbour and back
    first: the [h]-hop neighbourhood is part of the [(h+2)]-hop one. *)
Theorem multi_hop_two_more_hops (G : Graph) (v h : Z) (depth : nat) :
  graph_closed G →
  graph_symmetric G →
  is_Some (G !! v) →
  1 ≤ h →
  (Z.to_nat h + 2 ≤ depth)%nat →
  ∃ Nh Nh2,
    multi_hop_neighborhood depth G v h = Returns Nh ∧
    multi_hop_neighborhood depth G v (h + 2) = Returns Nh2 ∧
    Nh ⊆ Nh2.
Proof.
  intros Hcl Hsym Hv Hh Hd.
  destruct (Z.to_nat h) as [|n] eqn:Hn; [lia|].
  destruct (multi_hop_neighborhood_spec G Hcl n depth v Hv) as (Nh & HNh & Hw1); [lia|].
  destruct (multi_hop_neighborhood_spec G Hcl (S (S n)) depth v Hv)
    as (Nh2 & HNh2 & Hw2); [lia|].
  exists Nh, Nh2.
  replace h with (Z.of_nat (S n)) by lia. split; [done|].
  replace (Z.of_nat (S n) + 2) with (Z.of_nat (S (S (S n)))) by lia.
  split; [done|]. intros w Hw. apply Hw2. apply Hw1 in Hw.
  pose proof Hw as Hw'. apply walk_of_length_S in Hw' as (u & Hvu & _).
  apply walk_of_length_S. exists u. split; [done|].
  apply walk_of_length_S. exists v. split; [by apply Hsym|done].
Qed.

Lemma multi_hop_two_more_hops_witness :
  (graph_closed path_graph3 ∧ graph_symmetric path_graph3 ∧
   is_Some (path_graph3 !! 0) ∧ 1 ≤ 1 ∧ (Z.to_nat 1 + 2 ≤ 3)%nat) ∧
  ∃ Nh Nh2,
    multi_hop_neighborhood 3 path_graph3 0 1 = Returns Nh ∧
    multi_hop_neighborhood 3 path_graph3 0 (1 + 2) = Returns Nh2 ∧
    Nh ⊆ Nh2.
Proof.
  assert (graph_closed path_graph3) as H1 by (apply graph_closed_alt; by_decide).
  assert (graph_symmetric path_graph3) as H2
    by (apply graph_symmetric_alt; by_decide).
  assert (is_Some (path_graph3 !! 0)) as H3 by by_decide.
  assert (1 ≤ 1) as H4 by lia.
  assert (Z.to_nat 1 + 2 ≤ 3)%nat as H5 by (simpl; lia).
  split; [done|].
  exact (multi_hop_two_more_hops path_graph3 0 1 3 H1 H2 H3 H4 H5).
Defined.

Section Generator.

Variable fl : Q → Q.
Variable shortest_path : Graph → Z → Z → option (list Z).

Lemma choice_nil s : choice [] s = None.
Proof. done. Qed.

Lemma choice_elem arr s v s' : choice arr s = Some (v, s') → v ∈ arr.
Proof.
  unfold choice. intros Hrun.
  apply Rand_bind_Some in Hrun as (i & s1 & _ & Hrun).
  apply raise_or_Some in Hrun as [Hv _]. by eapply list_elem_of_lookup_2.
Qed.

Lemma Rand_mapM_None {A B} (f : A → Rand B) (l : list A) x :
  x ∈ l → (∀ s, f x s = None) → ∀ s, mapM f l s = None.
Proof.
  intros Hx Hf. induction l as [|y l IH]; intros s; [by apply elem_of_nil in Hx|].
  rewrite Rand_mapM_cons. apply Rand_bind_None.
  apply elem_of_cons in Hx as [<-|Hx]; [by left|].
  destruct (f y s) as [[b s1]|] eqn:Hy; [right|by left].
  exists b, s1. split; [done|]. apply Rand_bind_None. left. by apply IH.
Qed.

Lemma corridor_choice_None (A B : list Z) s :
  A = [] ∨ B = [] →
  (v_1 ← choice A; v_2 ← choice B; mret (v_1, v_2) : Rand (Z * Z)) s = None.
Proof.
  intros Hempty. apply Rand_bind_None.
  destruct (choice A s) as [[v1 s1]|] eqn:HA; [right|by left].
  exists v1, s1. split; [done|]. apply Rand_bind_None. left.
  destruct Hempty as [-> | ->]; [by rewrite choice_nil in HA|apply choice_nil].
Qed.

Lemma random_walk_None G R i s :
  [] ∈ sampled_regions R i → random_walk shortest_path G R i s = None.
Proof.
  unfold sampled_regions. rewrite !elem_of_cons, elem_of_nil.
  intros Hempty. unfold random_walk. apply Rand_bind_None.
  destruct (choice (BEGIN R) s) as [[vb s1]|] eqn:Hb; [right|by left].
  exists vb, s1. split; [done|].
  destruct Hempty as [HB|Hempty]; [by rewrite <- HB, choice_nil in Hb|].
  apply Rand_bind_None.
  match goal with
  | |- ?m s1 = None ∨ _ => destruct (m s1) as [[v12 s2]|] eqn:H12; [right|by left]
  end.
  exists v12, s2. split; [done|].
  destruct Hempty as [HA|[HB|[HE|[]]]].
  - exfalso. repeat case_decide;
      rewrite corridor_choice_None in H12 by (by left); done.
  - exfalso. repeat case_decide;
      rewrite corridor_choice_None in H12 by (by right); done.
  - apply Rand_bind_None. left. by rewrite <- HE, choice_nil.
Qed.

End Generator.

(** X20. A walk cannot be drawn from an empty region: when one of the
    regions that walk number [i] samples (BEGIN, the A and the B corridor
    of index [i mod 3], END) is empty and [i < m], the whole generation
    raises; no list of walks is returned. *)
Theorem empty_region_aborts_generation (fl : Q → Q)
    (shortest_path : Graph → Z → Z → option (list Z))
    (G : DiGraph) (points : list (Q * Q)) (valid_idxs : list Z)
    (R : regions) (m i : nat) (s : rng) :
  partition_nodes fl points valid_idxs = Some R →
  (i < m)%nat →
  [] ∈ sampled_regions R i →
  generate_random_walks fl shortest_path G points valid_idxs m s = None.
Proof.
  intros HR Hi Hempty. unfold generate_random_walks.
  apply Rand_bind_None. right. exists R, s.
  split; [by apply raise_or_Some|].
  apply (Rand_mapM_None _ _ i).
  - apply elem_of_seq. lia.
  - intros s0. by apply random_walk_None.
Qed.

Lemma empty_region_aborts_generation_witness :
  let R := {| BEGIN := [0]; END := [5]; A0 := [1]; A1 := [2]; A2 := [3];
              B0 := []; B1_ := []; B2_ := [] |} in
  (partition_nodes (λ q, q) sample_points [0; 1; 2; 3; 4; 5] = Some R ∧
   (0 < 2)%nat ∧ [] ∈ sampled_regions R 0) ∧
  generate_random_walks (λ q, q) direct_path corridor_graph sample_points
    [0; 1; 2; 3; 4; 5] 2 (const_rng 0) = None.
Proof.
  set (R := {| BEGIN := [0]; END := [5]; A0 := [1]; A1 := [2]; A2 := [3];
               B0 := []; B1_ := []; B2_ := [] |}).
  assert (partition_nodes (λ q, q) sample_points [0; 1; 2; 3; 4; 5] = Some R) as H1
    by (by vm_compute).
  assert (0 < 2)%nat as H2 by lia.
  assert ([] ∈ sampled_regions R 0) as H3 by by_decide.
  split; [done|].
  exact (empty_region_aborts_generation (λ q, q) direct_path corridor_graph
           sample_points [0; 1; 2; 3; 4; 5] R 2 0 (const_rng 0) H1 H2 H3).
Defined.

Section Walk_waypoints.

Variable fl : Q → Q.
Variable shortest_path : Graph → Z → Z → option (list Z).

Lemma partition_nodes_disjoint points valid_idxs R x (j k : nat) Rj Rk :
  partition_nodes fl points valid_idxs = Some R →
  region_list R !! j = Some Rj → region_list R !! k = Some Rk →
  x ∈ Rj → x ∈ Rk → j = k.
Proof.
  intros HR Hj Hk Hxj Hxk.
  assert (Forall (λ i, is_Some (py_index points i)) valid_idxs) as Hvalid.
  { unfold partition_nodes in HR.
    destruct (take_rows points valid_idxs) as [pv|] eqn:Hpv; [|done].
    by apply (mapM_is_Some_1 (py_index points)). }
  destruct (partition_nodes_spec fl points valid_idxs Hvalid) as (R' & HR' & Hmem).
  assert (R' = R) as -> by congruence.
  apply (Hmem x j Rj Hj) in Hxj as (_ & pj & Hpj & Cj & HCj & Hcj).
  apply (Hmem x k Rk Hk) in Hxk as (_ & pk & Hpk & Ck & HCk & Hck).
  assert (pk = pj) as -> by congruence.
  by eapply region_conditions_exclusive.
Qed.

Lemma sampled_regions_lookup R i :
  ∃ (ja jb : nat) RA RB,
    sampled_regions R i = [BEGIN R; RA; RB; END R] ∧
    (1 ≤ ja ≤ 3)%nat ∧ (4 ≤ jb ≤ 6)%nat ∧
    region_list R !! ja = Some RA ∧ region_list R !! jb = Some RB.
Proof.
  unfold sampled_regions. repeat case_decide.
  - exists 1%nat, 4%nat, (A0 R), (B0 R). split_and!; (done || lia).
  - exists 2%nat, 5%nat, (A1 R), (B1_ R). split_and!; (done || lia).
  - exists 3%nat, 6%nat, (A2 R), (B2_ R). split_and!; (done || lia).
Qed.

Lemma corridor_choice_elem (A B : list Z) s v12 s' :
  (v_1 ← choice A; v_2 ← choice B; mret (v_1, v_2) : Rand (Z * Z)) s = Some (v12, s') →
  v12.1 ∈ A ∧ v12.2 ∈ B.
Proof.
  intros Hrun.
  apply Rand_bind_Some in Hrun as (v1 & s1 & H1 & Hrun).
  apply Rand_bind_Some in Hrun as (v2 & s2 & H2 & Hrun).
  injection Hrun as <- _. split; by eapply choice_elem.
Qed.

Lemma random_walk_waypoints G R i s path s' :
  random_walk shortest_path G R i s = Some (path, s') →
  ∃ vb v1 v2 ve p1 p2 p3,
    Forall2 (λ (v : Z) (Rg : list Z), v ∈ Rg) [vb; v1; v2; ve] (sampled_regions R i) ∧
    shortest_path G vb v1 = Some p1 ∧
    shortest_path G v1 v2 = Some p2 ∧
    shortest_path G v2 ve = Some p3 ∧
    path = py_take (-1) p1 ++ py_take (-1) p2 ++ p3.
Proof.
  unfold random_walk. intros Hrun.
  apply Rand_bind_Some in Hrun as (vb & s1 & Hb & Hrun).
  apply Rand_bind_Some in Hrun as ([v1 v2] & s2 & H12 & Hrun).
  apply Rand_bind_Some in Hrun as (ve & s3 & He & Hrun).
  apply Rand_bind_Some in Hrun as (p1 & s4 & Hp1 & Hrun).
  apply Rand_bind_Some in Hrun as (p2 & s5 & Hp2 & Hrun).
  apply Rand_bind_Some in Hrun as (p3 & s6 & Hp3 & Hrun).
  injection Hrun as <- _. cbn [fst snd] in *.
  apply raise_or_Some in Hp1 as [Hp1 _].
  apply raise_or_Some in Hp2 as [Hp2 _].
  apply raise_or_Some in Hp3 as [Hp3 _].
  apply choice_elem in Hb. apply choice_elem in He.
  exists vb, v1, v2, ve, p1, p2, p3. split; [|done].
  unfold sampled_regions.
  repeat case_decide; apply corridor_choice_elem in H12 as [? ?];
    repeat constructor; done.
Qed.

Lemma drop_last_head (p : list Z) a b :
  head p = Some a → last p = Some b → a ≠ b →
  head (py_take (-1) p) = Some a.
Proof.
  intros Hh Hl Hne. pose proof (py_take_drop_last p b Hl) as Heq.
  destruct (py_take (-1) p) as [|x q].
  - rewrite Heq in Hh. simpl in Hh. congruence.
  - rewrite Heq in Hh. simpl in Hh. done.
Qed.

Lemma Rand_mapM_Forall2 {A B} (f : A → Rand B) l s ys s' :
  mapM f l s = Some (ys, s') →
  Forall2 (λ x y, ∃ s1 s2, f x s1 = Some (y, s2)) l ys.
Proof.
  revert s ys s'. induction l as [|x l IH]; intros s ys s' Hrun.
  - injection Hrun as <- _. constructor.
  - rewrite Rand_mapM_cons in Hrun.
    apply Rand_bind_Some in Hrun as (y & s1 & Hy & Hrun).
    apply Rand_bind_Some in Hrun as (k & s2 & Hk & Hrun).
    injection Hrun as <- _. constructor; [eauto|by eapply IH].
Qed.

End Walk_waypoints.

(** X21. Every generated walk crosses the complex: if the shortest-path
    capability returns a sequence that starts at the source and ends at
    the target, walk number [i] starts at a node of BEGIN, ends at a node
    of END, passes through a node of the A corridor and a node of the B
    corridor of index [i mod 3], and has at least four nodes. *)
Theorem generated_walks_cross_the_regions (fl : Q → Q)
    (shortest_path : Graph → Z → Z → option (list Z))
    (G : DiGraph) (points : list (Q * Q)) (valid_idxs : list Z) (m : nat)
    (s : rng) (paths : list (list Z)) (s' : rng) :
  (∀ src tgt p, shortest_path (to_undirected G) src tgt = Some p →
     head p = Some src ∧ last p = Some tgt) →
  generate_random_walks fl shortest_path G points valid_idxs m s = Some (paths, s') →
  ∃ R, partition_nodes fl points valid_idxs = Some R ∧
    ∀ (i : nat) p, paths !! i = Some p →
      (4 ≤ length p)%nat ∧
      ∃ vb v1 v2 ve,
        Forall2 (λ (v : Z) (Rg : list Z), v ∈ Rg) [vb; v1; v2; ve] (sampled_regions R i) ∧
        head p = Some vb ∧ last p = Some ve ∧ v1 ∈ p ∧ v2 ∈ p.
Proof.
  intros Hsp Hrun. unfold generate_random_walks in Hrun.
  apply Rand_bind_Some in Hrun as (R & s1 & HR & Hrun).
  apply raise_or_Some in HR as [HR _].
  exists R. split; [done|]. intros i p Hi.
  apply Rand_mapM_Forall2 in Hrun.
  destruct (Forall2_lookup_r _ _ _ _ _ Hrun Hi) as (i' & Hi' & s2 & s3 & Hwalk).
  apply lookup_seq in Hi' as [-> _]. simpl in Hwalk.
  apply random_walk_waypoints in Hwalk
    as (vb & v1 & v2 & ve & p1 & p2 & p3 & Hreg & Hp1 & Hp2 & Hp3 & ->).
  destruct (sampled_regions_lookup R i)
    as (ja & jb & RA & RB & Hsr & Hja & Hjb & HRA & HRB).
  pose proof Hreg as Hreg'. rewrite Hsr in Hreg'.
  apply Forall2_cons in Hreg' as [Hvb Hreg'].
  apply Forall2_cons in Hreg' as [Hv1 Hreg'].
  apply Forall2_cons in Hreg' as [Hv2 Hreg'].
  apply Forall2_cons in Hreg' as [Hve _].
  assert (region_list R !! 0%nat = Some (BEGIN R)) as H0 by done.
  assert (region_list R !! 7%nat = Some (END R)) as H7 by done.
  assert (vb ≠ v1) as Hne1.
  { intros ->. pose proof (partition_nodes_disjoint fl _ _ _ _ _ _ _ _ HR H0 HRA Hvb Hv1). lia. }
  assert (v1 ≠ v2) as Hne2.
  { intros ->. pose proof (partition_nodes_disjoint fl _ _ _ _ _ _ _ _ HR HRA HRB Hv1 Hv2). lia. }
  assert (v2 ≠ ve) as Hne3.
  { intros ->. pose proof (partition_nodes_disjoint fl _ _ _ _ _ _ _ _ HR HRB H7 Hv2 Hve). lia. }
  apply Hsp in Hp1 as [Hh1 Hl1]. apply Hsp in Hp2 as [Hh2 Hl2].
  apply Hsp in Hp3 as [Hh3 Hl3].
  pose proof (drop_last_head p1 vb v1 Hh1 Hl1 Hne1) as Hd1.
  pose proof (drop_last_head p2 v1 v2 Hh2 Hl2 Hne2) as Hd2.
  destruct (py_take (-1) p1) as [|x1 q1]; [done|]. injection Hd1 as ->.
  destruct (py_take (-1) p2) as [|x2 q2]; [done|]. injection Hd2 as ->.
  destruct p3 as [|x3 [|y3 q3]]; [done| |].
  { simpl in Hh3, Hl3. congruence. }
  injection Hh3 as ->.
  split; [|exists vb, v1, v2, ve; split_and!].
  - rewrite !length_app. simpl. lia.
  - done.
  - done.
  - rewrite !last_app. by rewrite Hl3.
  - rewrite !elem_of_app. right. left. left.
  - rewrite !elem_of_app, !elem_of_cons. by do 2 right; left.
Qed.

Lemma direct_path_ends G src tgt p :
  direct_path G src tgt = Some p → head p = Some src ∧ last p = Some tgt.
Proof.
  unfold direct_path. repeat case_decide; intros [= <-]; subst; simpl; auto.
Qed.

Lemma generated_walks_cross_the_regions_witness :
  let paths := [[0; 1; 4; 7]; [0; 2; 5; 7]; [0; 3; 6; 7]] in
  ((∀ src tgt p, direct_path (to_undirected corridor_graph) src tgt = Some p →
      head p = Some src ∧ last p = Some tgt) ∧
   generate_random_walks (λ q, q) direct_path corridor_graph corridor_points
       (seqZ 0 8) 3 (const_rng 0)
     = Some (paths, const_rng 0)) ∧
  ∃ R, partition_nodes (λ q, q) corridor_points (seqZ 0 8) = Some R ∧
    ∀ (i : nat) p, paths !! i = Some p →
      (4 ≤ length p)%nat ∧
      ∃ vb v1 v2 ve,
        Forall2 (λ (v : Z) (Rg : list Z), v ∈ Rg) [vb; v1; v2; ve] (sampled_regions R i) ∧
        head p = Some vb ∧ last p = Some ve ∧ v1 ∈ p ∧ v2 ∈ p.
Proof.
  assert (generate_random_walks (λ q, q) direct_path corridor_graph corridor_points
            (seqZ 0 8) 3 (const_rng 0)
            = Some ([[0; 1; 4; 7]; [0; 2; 5; 7]; [0; 3; 6; 7]], const_rng 0)) as Hrun
    by (vm_compute; reflexivity).
  split; [split; [apply direct_path_ends|exact Hrun]|].
  exact (generated_walks_cross_the_regions (λ q, q) direct_path corridor_graph
           corridor_points (seqZ 0 8) 3 (const_rng 0) _ _
           (direct_path_ends (to_undirected corridor_graph)) Hrun).
Defined.

(** X22. The regions hold valid nodes only, and they cover every valid
    node whose coordinate sum is none of 1/4, 1, 7/4 and whose coordinate
    difference is neither 1/2 nor -1/2: such a node lies in one of the
    eight regions. *)
Theorem regions_cover_valid_nodes (fl : Q → Q) (points : list (Q * Q))
    (valid_idxs : list Z) (R : regions) :
  partition_nodes fl points valid_idxs = Some R →
  (∀ Rj x, Rj ∈ region_list R → x ∈ Rj → x ∈ valid_idxs) ∧
  ∀ x p, x ∈ valid_idxs → py_index points x = Some p →
    ¬ (coord_sum fl p == 1 # 4)%Q → ¬ (coord_sum fl p == 1)%Q →
    ¬ (coord_sum fl p == 7 # 4)%Q →
    ¬ (coord_diff fl p == 1 # 2)%Q → ¬ (coord_diff fl p == - (1 # 2))%Q →
    ∃ Rj, Rj ∈ region_list R ∧ x ∈ Rj.
Proof.
  intros HR.
  assert (Forall (λ i, is_Some (py_index points i)) valid_idxs) as Hvalid.
  { unfold partition_nodes in HR.
    destruct (take_rows points valid_idxs) as [pv|] eqn:Hpv; [|done].
    by apply (mapM_is_Some_1 (py_index points)). }
  destruct (partition_nodes_spec fl points valid_idxs Hvalid) as (R' & HR' & Hmem).
  assert (R' = R) as -> by congruence. split.
  - intros Rj x HRj Hx. apply list_elem_of_lookup_1 in HRj as [j Hj].
    by apply (Hmem x j Rj Hj) in Hx as [? _].
  - intros x p Hx Hp Hs1 Hs2 Hs3 Hd1 Hd2.
    set (sv := coord_sum fl p) in *. set (dv := coord_diff fl p) in *.
    assert (∃ (j : nat) C, region_conditions sv dv !! j = Some C ∧ C) as (j & C & HC & Hc).
    { destruct (Qlt_le_dec sv (1 # 4)) as [?|?]; [by exists 0%nat; eexists|].
      destruct (Qlt_le_dec (7 # 4) sv) as [?|?]; [by exists 7%nat; eexists|].
      destruct (Qlt_le_dec sv 1) as [?|?].
      - destruct (Qlt_le_dec dv (- (1 # 2))) as [?|?].
        { exists 3%nat. eexists. split; [done|]. split_and!; (done || lra). }
        destruct (Qlt_le_dec (1 # 2) dv) as [?|?].
        { exists 2%nat. eexists. split; [done|]. split_and!; (done || lra). }
        exists 1%nat. eexists. split; [done|]. split_and!; lra.
      - destruct (Qlt_le_dec dv (- (1 # 2))) as [?|?].
        { exists 6%nat. eexists. split; [done|]. split_and!; (done || lra). }
        destruct (Qlt_le_dec (1 # 2) dv) as [?|?].
        { exists 5%nat. eexists. split; [done|]. split_and!; (done || lra). }
        exists 4%nat. eexists. split; [done|]. split_and!; lra. }
    assert (is_Some (region_list R !! j)) as [Rj Hj].
    { apply lookup_lt_is_Some_2. apply lookup_lt_Some in HC. done. }
    exists Rj. split; [by eapply list_elem_of_lookup_2|].
    apply (Hmem x j Rj Hj). split; [done|]. exists p. split; [done|].
    exists C. done.
Qed.

Lemma regions_cover_valid_nodes_witness :
  let R := {| BEGIN := [0]; END := [5]; A0 := [1]; A1 := [2]; A2 := [3];
              B0 := []; B1_ := []; B2_ := [] |} in
  partition_nodes (λ q, q) sample_points [0; 1; 2; 3; 4; 5] = Some R ∧
  (∀ Rj x, Rj ∈ region_list R → x ∈ Rj → x ∈ [0; 1; 2; 3; 4; 5]) ∧
  ∀ x p, x ∈ [0; 1; 2; 3; 4; 5] → py_index sample_points x = Some p →
    ¬ (coord_sum (λ q, q) p == 1 # 4)%Q → ¬ (coord_sum (λ q, q) p == 1)%Q →
    ¬ (coord_sum (λ q, q) p == 7 # 4)%Q →
    ¬ (coord_diff (λ q, q) p == 1 # 2)%Q → ¬ (coord_diff (λ q, q) p == - (1 # 2))%Q →
    ∃ Rj, Rj ∈ region_list R ∧ x ∈ Rj.
Proof.
  set (R := {| BEGIN := [0]; END := [5]; A0 := [1]; A1 := [2]; A2 := [3];
               B0 := []; B1_ := []; B2_ := [] |}).
  assert (partition_nodes (λ q, q) sample_points [0; 1; 2; 3; 4; 5] = Some R) as H
    by (by vm_compute).
  split; [exact H|].
  exact (regions_cover_valid_nodes (λ q, q) sample_points [0; 1; 2; 3; 4; 5] R H).
Defined.

(** X23. The flow encoding never raises on what the generator hands it:
    on a complex whose retained faces are proper triangles, for a walk of
    the undirected graph and every initial segment [q[:k]] of it,
    [path_to_flow] with the edge index and [len(E)] of the complex returns
    a vector with one entry per edge. *)
Theorem flow_defined_on_walks_of_complex (n : Z) (simplices : list face)
    (valid_idxs : list Z) (q : list Z) (k : Z) :
  let sc := random_SC_graph n simplices valid_idxs in
  Forall nondegenerate (sc_faces sc) →
  is_walk (to_undirected (sc_G sc)) q →
  ∃ f, path_to_flow (py_take k q) (sc_E_lookup sc) (length (sc_E sc)) = Some f ∧
       length f = length (sc_E sc).
Proof.
  intros sc Hnd Hw.
  assert (path_on_edges (sc_E sc) (py_take k q)) as Hon.
  { apply (is_walk_path_on_edges (sc_G sc)).
    - intros e. unfold sc. by rewrite sc_G_edges.
    - unfold py_take. by apply is_walk_take. }
  destruct (path_to_flow_loop_spec (sc_E sc) (NoDup_sc_E n simplices valid_idxs)
              (sc_E_lt n simplices valid_idxs Hnd) (py_take k q)
              (replicate (length (sc_E sc)) 0))
    as (f & Hf & Hlen & _); [by rewrite length_replicate|done|].
  exists f. split; [exact Hf|]. by rewrite Hlen, length_replicate.
Qed.

Lemma flow_defined_on_walks_of_complex_witness :
  let sc := random_SC_graph 4 [Face 2 0 1; Face 1 3 2] [0; 1; 2; 3] in
  (Forall nondegenerate (sc_faces sc) ∧
   is_walk (to_undirected (sc_G sc)) [0; 1; 3; 2; 0]) ∧
  ∃ f, path_to_flow (py_take (-2) [0; 1; 3; 2; 0]) (sc_E_lookup sc)
         (length (sc_E sc)) = Some f ∧
       length f = length (sc_E sc).
Proof.
  assert (Forall nondegenerate
            (sc_faces (random_SC_graph 4 [Face 2 0 1; Face 1 3 2] [0; 1; 2; 3]))) as H1
    by by_decide.
  assert (is_walk (to_undirected
                     (sc_G (random_SC_graph 4 [Face 2 0 1; Face 1 3 2] [0; 1; 2; 3])))
            [0; 1; 3; 2; 0]) as H2.
  { cbn [is_walk]. split_and!; try done; by_decide. }
  split; [done|].
  exact (flow_defined_on_walks_of_complex 4 [Face 2 0 1; Face 1 3 2] [0; 1; 2; 3]
           [0; 1; 3; 2; 0] (-2) H1 H2).
Defined.
